(** * Verification of platform-cli: plugin registry and template processor

    Shallow embedding of [src/plugins/registry.js] (class [PluginRegistry]),
    of the registration loop of [src/plugins/discovery.js], of
    [src/templates/processor.js] ([processTemplate], [processFile],
    [isTextFile]), of the template sources ([getTemplateSource],
    [listTemplates], [getRepoUrl], [getBranch]) and of the generate
    command's helpers ([getDefaultPackage], [commaSeparatedList]).
    Strings are byte strings; letter case and white space follow
    JavaScript on ASCII. *)

From Stdlib Require Import String Ascii ZArith.
From stdpp Require Import base gmap sets list strings pretty.
Open Scope string_scope.

(* ------------------------------------------------------------------ *)
(** ** Plugins and the registry ([src/plugins/registry.js]) *)

(** A plugin as seen by the registry: [getName()], [getVersion()],
    [getDependencies()] (an array of names). *)
Record plugin := mkPlugin {
  p_name : string;
  p_version : string;
  p_dependencies : list string
}.

(** Errors thrown by the registry methods. *)
Inductive reg_error :=
| EDuplicate (name : string)              (* Plugin with name "..." is already registered *)
| ENotFound (name : string)               (* Plugin "..." not found *)
| ECircular (name : string)               (* Circular dependency detected involving plugin "..." *)
| EUnresolved (dep name : string).        (* Unresolved dependency "dep" for plugin "name" *)

(** Outcome of a registry operation: a normal return, a thrown error, or
    (only for the fuel-bounded recursions below) exhaustion of the fuel,
    which the lemmas below show never happens with the fuel given. *)
Inductive outcome (A : Type) :=
| Ret (a : A)
| Throw (e : reg_error)
| NoFuel.
Arguments Ret {A} a.
Arguments Throw {A} e.
Arguments NoFuel {A}.

(** [this.plugins]: a [Map] from name to plugin. *)
Abbreviation registry := (gmap string plugin).

(** [register(plugin)]: the method's outcome and the map [this.plugins]
    after the call. *)
Definition register (plugins : registry) (p : plugin) : outcome unit * registry :=
  let name := p_name p in
  if decide (is_Some (plugins !! name)) then (Throw (EDuplicate name), plugins)
  else (Ret tt, <[name := p]> plugins).

(** The discovery loops of [src/plugins/discovery.js]: each loaded plugin
    is registered inside [try { ... } catch { logger.warn(...) }], so a
    failed registration is skipped. *)
Definition register_all (plugins : registry) (ps : list plugin) : registry :=
  foldl (λ acc p, snd (register acc p)) plugins ps.

(** Every entry is stored under its plugin's own name. *)
Definition keys_are_names (plugins : registry) : Prop :=
  ∀ k p, plugins !! k = Some p → p_name p = k.

(** [hasPlugin(name)] *)
Definition hasPlugin (plugins : registry) (name : string) : bool :=
  bool_decide (is_Some (plugins !! name)).

(** [getPlugin(name)] *)
Definition getPlugin (plugins : registry) (name : string) : outcome plugin :=
  match plugins !! name with
  | Some p => Ret p
  | None => Throw (ENotFound name)
  end.

(** A [for ... of] loop whose body may throw: runs [body] on every element
    in order, stopping at the first non-normal outcome. *)
Fixpoint for_each {A B : Type} (body : A -> B -> outcome B) (l : list A) (st : B)
    : outcome B :=
  match l with
  | [] => Ret st
  | x :: l' =>
      match body x st with
      | Ret st' => for_each body l' st'
      | Throw e => Throw e
      | NoFuel => NoFuel
      end
  end.

(** [resolveDependencies(name, visited)]: [visited] is copied
    ([new Set(visited)]) before each recursive call, so the callee's
    additions never flow back; it is passed by value here. The [fuel]
    bounds the recursion depth. *)
Fixpoint resolveDependencies (plugins : registry) (fuel : nat) (name : string)
    (visited : gset string) : outcome unit :=
  if decide (name ∈ visited) then Throw (ECircular name) else
  let visited := {[name]} ∪ visited in
  match getPlugin plugins name with
  | Throw e => Throw e
  | NoFuel => NoFuel
  | Ret plugin =>
      match fuel with
      | O => NoFuel
      | S fuel' =>
          for_each (fun dep (_ : unit) =>
                      if negb (hasPlugin plugins dep)
                      then Throw (EUnresolved dep name)
                      else resolveDependencies plugins fuel' dep visited)
                   (p_dependencies plugin) tt
      end
  end.

(** Top-level call [resolveDependencies(name)] with the default empty set. *)
Definition resolveDependencies_top (plugins : registry) (name : string) : outcome unit :=
  resolveDependencies plugins (S (size (dom plugins))) name ∅.

(** The same loop for the [visit] closure, which never throws; [None]
    only reports exhausted fuel. *)
Fixpoint for_each_opt {A B : Type} (body : A -> B -> option B) (l : list A) (st : B)
    : option B :=
  match l with
  | [] => Some st
  | x :: l' =>
      match body x st with
      | Some st' => for_each_opt body l' st'
      | None => None
      end
  end.

(** The inner closure [visit(name)] of [getPluginsInDependencyOrder]: the
    shared [visited] set and [result] array are threaded as state.
    [this.hasPlugin(name)] followed by [this.getPlugin(name)] is one map
    lookup. [None] only reports exhausted fuel. *)
Fixpoint visit (plugins : registry) (fuel : nat) (name : string)
    (st : gset string * list string) : option (gset string * list string) :=
  let '(visited, result) := st in
  if decide (name ∈ visited) then Some st else
  let visited := {[name]} ∪ visited in
  match plugins !! name with
  | None => Some (visited, result)
  | Some plugin =>
      match fuel with
      | O => None
      | S fuel' =>
          match for_each_opt (visit plugins fuel') (p_dependencies plugin)
                  (visited, result) with
          | None => None
          | Some (visited', result') =>
              Some (visited',
                    if bool_decide (name ∈ result') then result' else (result' ++ [name])%list)
          end
      end
  end.

(** [getPluginsInDependencyOrder(pluginNames)]. The fuel [size + 1] is
    enough: each nested call marks one more registered name visited. *)
Definition getPluginsInDependencyOrder (plugins : registry) (pluginNames : list string)
    : option (list string) :=
  match for_each_opt (visit plugins (S (size (dom plugins)))) pluginNames (∅, []) with
  | Some (_, result) => Some result
  | None => None
  end.

(* ------------------------------------------------------------------ *)
(** ** JavaScript string operations

    Strings are byte strings; on the ASCII text used here they agree with
    JavaScript's UTF-16 strings. *)

(** [s] with the prefix [pat] removed, if [s] starts with [pat]. *)
Fixpoint strip_prefix (pat s : string) : option string :=
  match pat, s with
  | EmptyString, _ => Some s
  | String c pat', String d s' => if Ascii.eqb c d then strip_prefix pat' s' else None
  | String _ _, EmptyString => None
  end.

(** [s.includes(pat)] *)
Fixpoint includes (s pat : string) : bool :=
  match strip_prefix pat s with
  | Some _ => true
  | None => match s with EmptyString => false | String _ s' => includes s' pat end
  end.

(** [GetSubstitution] for a pattern without capture groups: [$$], [$&],
    [$`] and [$'] are expanded, every other character is copied. *)
Fixpoint get_substitution (matched before after rep : string) : string :=
  match rep with
  | String "$" (String "$" r) => String "$" (get_substitution matched before after r)
  | String "$" (String "&" r) => matched ++ get_substitution matched before after r
  | String "$" (String "`" r) => before ++ get_substitution matched before after r
  | String "$" (String "'" r) => after ++ get_substitution matched before after r
  | String c r => String c (get_substitution matched before after r)
  | EmptyString => EmptyString
  end.

Fixpoint replace_first_go (pat rep before r : string) : string :=
  match strip_prefix pat r with
  | Some after => before ++ get_substitution pat before after rep ++ after
  | None =>
      match r with
      | EmptyString => before
      | String c r' => replace_first_go pat rep (before ++ String c EmptyString) r'
      end
  end.

(** [s.replace(pat, rep)] with a string pattern: the first occurrence. *)
Definition replace_first (s pat rep : string) : string := replace_first_go pat rep "" s.

(** [before] is the part of the subject already scanned, [r] the rest. *)
Fixpoint replace_all_go (fuel : nat) (pat rep before r : string) : string :=
  match fuel with
  | O => r
  | S fuel' =>
      match r with
      | EmptyString => EmptyString
      | String c r' =>
          match strip_prefix pat r with
          | Some after =>
              get_substitution pat before after rep ++
              replace_all_go fuel' pat rep (before ++ pat) after
          | None => String c (replace_all_go fuel' pat rep (before ++ String c EmptyString) r')
          end
      end
  end.

(** [s.replace(/pat/g, rep)] for a regular expression matching the
    non-empty literal [pat]: every non-overlapping occurrence, left to
    right. Each step consumes a character, so [length s] steps suffice. *)
Definition replace_all (s pat rep : string) : string :=
  replace_all_go (String.length s) pat rep "" s.

(** JavaScript truthiness of a string field ([undefined] is [""]). *)
Definition truthy (s : string) : bool := negb (String.eqb s "").

(* ------------------------------------------------------------------ *)
(** ** [isTextFile] and Node's [path.extname] / [path.basename] (posix) *)

Definition char_slash : ascii := "/".
Definition char_dot : ascii := ".".

(** State of the backward scan of [path.extname]: [startDot], [startPart],
    [end], [matchedSlash], [preDotState]; [-1] is [None]. *)
Record ext_state := mkExt {
  startDot : option nat; startPart : nat; end_ : option nat;
  matchedSlash : bool; preDotState : Z
}.

(** The [for (let i = path.length - 1; i >= 0; --i)] loop; [cs] holds the
    characters at indices [i], [i-1], ..., [0]. *)
Fixpoint extname_loop (cs : list ascii) (i : nat) (st : ext_state) : ext_state :=
  match cs with
  | [] => st
  | c :: cs' =>
      if Ascii.eqb c char_slash then
        if negb (matchedSlash st) then
          mkExt (startDot st) (i + 1) (end_ st) (matchedSlash st) (preDotState st)
        else extname_loop cs' (i - 1) st
      else
        let st1 := match end_ st with
                   | None => mkExt (startDot st) (startPart st) (Some (i + 1)) false (preDotState st)
                   | Some _ => st
                   end in
        let st2 :=
          if Ascii.eqb c char_dot then
            match startDot st1 with
            | None => mkExt (Some i) (startPart st1) (end_ st1) (matchedSlash st1) (preDotState st1)
            | Some _ =>
                if negb (Z.eqb (preDotState st1) 1%Z)
                then mkExt (startDot st1) (startPart st1) (end_ st1) (matchedSlash st1) 1%Z
                else st1
            end
          else
            match startDot st1 with
            | Some _ => mkExt (startDot st1) (startPart st1) (end_ st1) (matchedSlash st1) (-1)%Z
            | None => st1
            end in
        extname_loop cs' (i - 1) st2
  end.

(** [path.extname(path)] *)
Definition extname (path : string) : string :=
  let cs := list_ascii_of_string path in
  let st := extname_loop (rev cs) (length cs - 1) (mkExt None 0 None true 0%Z) in
  match startDot st, end_ st with
  | Some sd, Some e =>
      if Z.eqb (preDotState st) 0%Z then ""
      else if Z.eqb (preDotState st) 1%Z && Nat.eqb sd (e - 1) && Nat.eqb sd (startPart st + 1)
      then ""
      else substring sd (e - sd) path
  | _, _ => ""
  end.

(** The loop of [path.basename(path)]: [start], [end], [matchedSlash]. *)
Fixpoint basename_loop (cs : list ascii) (i : nat) (start : nat) (end_ : option nat)
    (matchedSlash : bool) : nat * option nat :=
  match cs with
  | [] => (start, end_)
  | c :: cs' =>
      if Ascii.eqb c char_slash then
        if negb matchedSlash then (i + 1, end_)
        else basename_loop cs' (i - 1) start end_ matchedSlash
      else
        match end_ with
        | None => basename_loop cs' (i - 1) start (Some (i + 1)) false
        | Some _ => basename_loop cs' (i - 1) start end_ matchedSlash
        end
  end.

(** [path.basename(path)] *)
Definition basename (path : string) : string :=
  let cs := list_ascii_of_string path in
  match basename_loop (rev cs) (length cs - 1) 0 None true with
  | (_, None) => ""
  | (start, Some e) => substring start (e - start) path
  end.

(** [toLowerCase()] on ASCII letters. *)
Definition lower_ascii (c : ascii) : ascii :=
  let n := nat_of_ascii c in
  if Nat.leb 65 n && Nat.leb n 90 then ascii_of_nat (n + 32) else c.

Definition toLowerCase (s : string) : string :=
  string_of_list_ascii (map lower_ascii (list_ascii_of_string s)).

Definition textExtensions : list string :=
  [".txt"; ".md"; ".html"; ".css"; ".scss"; ".less"; ".js"; ".jsx"; ".ts"; ".tsx";
   ".json"; ".xml"; ".yaml"; ".yml"; ".properties"; ".conf"; ".config";
   ".java"; ".kt"; ".groovy"; ".gradle"; ".py"; ".rb"; ".php"; ".c"; ".cpp"; ".h";
   ".cs"; ".go"; ".rs"; ".swift"; ".sh"; ".bat"; ".ps1"].

Definition textFileNames : list string :=
  ["dockerfile"; "jenkinsfile"; "makefile"; "readme"; "license"; ".gitignore";
   ".dockerignore"; ".npmignore"; ".npmrc"; ".env"; ".env.example"].

(** [isTextFile(filePath)] *)
Definition isTextFile (filePath : string) : bool :=
  let ext := toLowerCase (extname filePath) in
  if existsb (String.eqb ext) textExtensions then true
  else existsb (String.eqb (toLowerCase (basename filePath))) textFileNames.

(* ------------------------------------------------------------------ *)
(** ** Template processor ([src/templates/processor.js]) *)

(** The project context built by the generate command. *)
Record context := mkContext {
  name : string;
  outputDir : string;
  packageName : string;
  templateName : string;
  plugins : list string
}.

(** Result of lodash's [template(text, { interpolate: /{{([\s\S]+?)}}/g })]
    applied to the context: the rendered text, or the message of the
    error it throws. *)
Inductive render_result :=
| Rendered (s : string)
| RenderError (message : string).

(** What is written to disk: a JavaScript string (written as UTF-8) or a
    raw buffer. *)
Inductive payload :=
| TextData (s : string)
| BufferData (b : string).

Inductive level := Debug | Info | Warn | Error.

(** The observable I/O: the logger's lines and the files written. *)
Record io := mkIO {
  log : list (level * string);
  written : list (string * payload)
}.

(** Asynchronous code that may throw, over the I/O state; [inl] carries the
    message of a thrown error. *)
Definition M (A : Type) : Type := io → (string + A) * io.

Definition ret {A} (a : A) : M A := λ st, (inr a, st).
Definition bind {A B} (m : M A) (k : A → M B) : M B :=
  λ st, match m st with
        | (inl e, st') => (inl e, st')
        | (inr a, st') => k a st'
        end.
Definition throw {A} (msg : string) : M A := λ st, (inl msg, st).
Definition logger (lv : level) (msg : string) : M unit :=
  λ st, (inr tt, mkIO (log st ++ [(lv, msg)]) (written st)).

Notation "x <- m ;; k" := (bind m (λ x, k)) (at level 100, m at next level, right associativity).
Notation "m ;;; k" := (bind m (λ _, k)) (at level 100, right associativity).

(** [try { body } catch (error) { logger.<lv>(prefix + error.message); throw error; }] *)
Definition catch_log_rethrow {A} (lv : level) (prefix : string) (body : M A) : M A :=
  λ st, match body st with
        | (inl e, st') => (inl e, mkIO (log st' ++ [(lv, prefix ++ e)]) (written st'))
        | r => r
        end.

Fixpoint log_all (lv : level) (msgs : list string) : M unit :=
  match msgs with
  | [] => ret tt
  | m :: ms => logger lv m ;;; log_all lv ms
  end.

Section Processor.

(** lodash's [template(text, { interpolate: /{{([\s\S]+?)}}/g })(context)]. *)
Variable template : string → context → render_result.
(** [templateSource.getFileContent(file)]: the file's bytes, or the message
    of the error it throws. *)
Variable getFileContent : string → string + string.
(** Node's [path.join], [path.dirname] and [Buffer#toString('utf8')]. *)
Variable path_join : string → string → string.
Variable path_dirname : string → string.
Variable decode_utf8 : string → string.
(** Whether [fs.ensureDir] and [fs.writeFile] succeed on a path, and the
    message of their error when they do not. *)
Variable ensureDir_ok : string → bool.
Variable writeFile_ok : string → bool.
Variable fs_error : string → string.

Definition ensureDir (dir : string) : M unit :=
  if ensureDir_ok dir then ret tt else throw (fs_error dir).

Definition writeFile (path : string) (data : payload) : M unit :=
  if writeFile_ok path then
    λ st, (inr tt, mkIO (log st) (written st ++ [(path, data)]))
  else throw (fs_error path).

(** [if (text.includes('{{') && text.includes('}}')) { try { text =
    template(...)(context) } catch (error) { logger.warn(...) } }]: the
    rewritten text and the warnings logged. *)
Definition interpolate_step (warning : string → string) (text : string) (ctx : context)
    : string * list string :=
  if includes text "{{" && includes text "}}" then
    match template text ctx with
    | Rendered s => (s, [])
    | RenderError msg => (text, [warning msg])
    end
  else (text, []).

(** The file path rewriting of [processFile]. *)
Definition rewrite_path (ctx : context) (file : string) : string * list string :=
  let '(outputPath, warnings) :=
    interpolate_step (λ msg, "Failed to process template variables in path " ++ file ++ ": " ++ msg)
      file ctx in
  let outputPath :=
    if truthy (packageName ctx) && includes outputPath "__packageDir__"
    then replace_first outputPath "__packageDir__" (replace_all (packageName ctx) "." "/")
    else outputPath in
  (outputPath, warnings).

(** The two "special replacements" of text contents. *)
Definition substitute_tokens (ctx : context) (text : string) : string :=
  let text := if truthy (packageName ctx)
              then replace_all text "${packageName}" (packageName ctx) else text in
  if truthy (name ctx) then replace_all text "${projectName}" (name ctx) else text.

(** The content rewriting of [processFile] for a text file. *)
Definition rewrite_content (ctx : context) (file text : string) : string * list string :=
  let '(text, warnings) :=
    interpolate_step (λ msg, "Failed to process template variables in " ++ file ++ ": " ++ msg)
      text ctx in
  (substitute_tokens ctx text, warnings).

(** [processFile(file, context, templateSource)] *)
Definition processFile (file : string) (ctx : context) : M unit :=
  catch_log_rethrow Warn ("Failed to process file " ++ file ++ ": ") (
    content <- (match getFileContent file with
                | inl msg => throw msg
                | inr c => ret c
                end) ;;
    let '(outputPath, path_warnings) := rewrite_path ctx file in
    log_all Warn path_warnings ;;;
    let outputFilePath := path_join (outputDir ctx) outputPath in
    ensureDir (path_dirname outputFilePath) ;;;
    (if isTextFile file then
       let '(textContent, warnings) := rewrite_content ctx file (decode_utf8 content) in
       log_all Warn warnings ;;;
       writeFile outputFilePath (TextData textContent)
     else writeFile outputFilePath (BufferData content)) ;;;
    logger Debug ("Processed file: " ++ file ++ " -> " ++ outputPath)).

(** The [for (const file of files) await processFile(...)] loop. *)
Fixpoint process_files (ctx : context) (files : list string) : M unit :=
  match files with
  | [] => ret tt
  | f :: fs => processFile f ctx ;;; process_files ctx fs
  end.

(** [processTemplate(context, templateSource)]; [getFiles] is the outcome of
    [templateSource.getFiles()]: the list of files or the message of the
    error it throws. The first [logger.info] is outside the [try]. *)
Definition processTemplate (ctx : context) (getFiles : string + list string) : M bool :=
  logger Info "Processing template files..." ;;;
  catch_log_rethrow Error "Template processing failed: " (
    ensureDir (outputDir ctx) ;;;
    files <- (match getFiles with
              | inl msg => throw msg
              | inr fs => ret fs
              end) ;;
    logger Debug ("Found " ++ pretty (N.of_nat (length files)) ++ " template files") ;;;
    process_files ctx files ;;;
    logger Info "Template processing complete" ;;;
    ret true).

End Processor.

(* ------------------------------------------------------------------ *)
(** ** lodash's [template] (the library function called by [processFile])

    With the option [interpolate: /{{([\s\S]+?)}}/g] and lodash's default
    settings for the other delimiters, [template] scans the text with
    [/<%-([\s\S]+?)%>|{{([\s\S]+?)}}|<%([\s\S]+?)%>|$/g] (the ES [${...}]
    form is only used with the default [interpolate]). Text between
    matches is copied; an escape span inserts [_.escape] of the value of
    its expression, an interpolate span the value itself ([null] and
    [undefined] give [""]), an evaluate span runs its code as statements;
    everything runs inside [with (obj) { ... }]. *)

Inductive tpl_piece :=
| PText (s : string)
| PEscape (code : string)
| PInterpolate (code : string)
| PEvaluate (code : string).

(** [(before, after)] around the first occurrence of [pat] in [s]. *)
Fixpoint split_at_first (pat s : string) : option (string * string) :=
  match strip_prefix pat s with
  | Some rest => Some (EmptyString, rest)
  | None =>
      match s with
      | EmptyString => None
      | String c s' =>
          match split_at_first pat s' with
          | Some (b, a) => Some (String c b, a)
          | None => None
          end
      end
  end.

(** [([\s\S]+?)cls]: at least one character, up to the first [cls]. *)
Definition find_close (cls r : string) : option (string * string) :=
  match r with
  | EmptyString => None
  | String c r' =>
      match split_at_first cls r' with
      | Some (code, rest) => Some (String c code, rest)
      | None => None
      end
  end.

Definition delim_span (opn cls : string) (s : string) : option (string * string) :=
  match strip_prefix opn s with
  | Some r => find_close cls r
  | None => None
  end.

(** The alternatives of the delimiter regular expression, tried in order at
    one position. *)
Definition delim_at (s : string) : option (tpl_piece * string) :=
  match delim_span "<%-" "%>" s with
  | Some (code, rest) => Some (PEscape code, rest)
  | None =>
      match delim_span "{{" "}}" s with
      | Some (code, rest) => Some (PInterpolate code, rest)
      | None =>
          match delim_span "<%" "%>" s with
          | Some (code, rest) => Some (PEvaluate code, rest)
          | None => None
          end
      end
  end.

(** The scan, one position at a time; every step consumes a character. *)
Fixpoint lodash_scan (fuel : nat) (s : string) : list tpl_piece :=
  match fuel with
  | O => [PText s]
  | S fuel' =>
      match s with
      | EmptyString => []
      | String c s' =>
          match delim_at s with
          | Some (piece, rest) => piece :: lodash_scan fuel' rest
          | None => PText (String c EmptyString) :: lodash_scan fuel' s'
          end
      end
  end.

(** Whether [s] contains a span [opn ... cls] with at least one character
    inside. *)
Fixpoint has_span (opn cls s : string) : bool :=
  match delim_span opn cls s with
  | Some _ => true
  | None => match s with EmptyString => false | String _ s' => has_span opn cls s' end
  end.

(** Value of a JavaScript expression: a string, or [null]/[undefined]. *)
Inductive js_value :=
| JString (s : string)
| JNullish.

(** [_.escape] *)
Fixpoint html_escape (s : string) : string :=
  match s with
  | EmptyString => EmptyString
  | String c s' =>
      (if Ascii.eqb c "&" then "&amp;"
       else if Ascii.eqb c "<" then "&lt;"
       else if Ascii.eqb c ">" then "&gt;"
       else if Ascii.eqb c (ascii_of_nat 34) then "&quot;"
       else if Ascii.eqb c "'" then "&#39;"
       else String c EmptyString) ++ html_escape s'
  end.

Section Lodash.

(** Evaluation of an expression inside [with (obj)]: its value, or the
    message of the error it throws. *)
Variable eval_expr : string → context → string + js_value.
(** Running a compiled template that contains evaluate spans (statements). *)
Variable run_statements : list tpl_piece → context → render_result.

Fixpoint render_pieces (ps : list tpl_piece) (ctx : context) : render_result :=
  match ps with
  | [] => Rendered EmptyString
  | p :: ps' =>
      let here :=
        match p with
        | PText s => inr s
        | PInterpolate code =>
            match eval_expr code ctx with
            | inl msg => inl msg
            | inr (JString v) => inr v
            | inr JNullish => inr EmptyString
            end
        | PEscape code =>
            match eval_expr code ctx with
            | inl msg => inl msg
            | inr (JString v) => inr (html_escape v)
            | inr JNullish => inr EmptyString
            end
        | PEvaluate _ => inr EmptyString
        end in
      match here with
      | inl msg => RenderError msg
      | inr v =>
          match render_pieces ps' ctx with
          | Rendered rest => Rendered (v ++ rest)
          | RenderError msg => RenderError msg
          end
      end
  end.

Definition is_evaluate (p : tpl_piece) : bool :=
  match p with PEvaluate _ => true | _ => false end.

(** [template(text, { interpolate: /{{([\s\S]+?)}}/g })(ctx)] *)
Definition lodash_template (text : string) (ctx : context) : render_result :=
  let ps := lodash_scan (S (String.length text)) text in
  if existsb is_evaluate ps then run_statements ps ctx else render_pieces ps ctx.

End Lodash.

(** Whitespace trimming of an expression's source. *)
Definition is_js_space (c : ascii) : bool :=
  Ascii.eqb c " " || Ascii.eqb c (ascii_of_nat 9) || Ascii.eqb c (ascii_of_nat 10)
  || Ascii.eqb c (ascii_of_nat 13).

Fixpoint trim_left (s : string) : string :=
  match s with
  | String c s' => if is_js_space c then trim_left s' else s
  | EmptyString => EmptyString
  end.

Definition trim (s : string) : string :=
  string_of_list_ascii (rev (list_ascii_of_string
    (trim_left (string_of_list_ascii (rev (list_ascii_of_string (trim_left s))))))).

(** Expression evaluation for expressions that are a bare identifier: a
    field of the context, otherwise a [ReferenceError]. Used only on
    inputs whose spans are bare identifiers. *)
Definition field_eval (code : string) (ctx : context) : string + js_value :=
  let x := trim code in
  if String.eqb x "name" then inr (JString (name ctx))
  else if String.eqb x "outputDir" then inr (JString (outputDir ctx))
  else if String.eqb x "packageName" then inr (JString (packageName ctx))
  else if String.eqb x "templateName" then inr (JString (templateName ctx))
  else inl (x ++ " is not defined").

(** The context of the spec's examples. *)
Definition ctx_orders : context := mkContext "orders-api" "/out" "com.acme.orders" "java-spring" [].

(** lodash's [template] with expression evaluation restricted to bare
    identifiers ([field_eval]); evaluate spans are outside this instance. *)
Definition lodash_fields : string → context → render_result :=
  lodash_template field_eval (λ _ _, RenderError "evaluate spans are not modelled").

(** Dependency edges of the registry, from dependent to dependency; only
    registered plugins have outgoing edges. *)
Definition dep_edge (plugins : registry) (x y : string) : Prop :=
  ∃ p, plugins !! x = Some p ∧ y ∈ p_dependencies p.

(** The dependency graph has no cycle. *)
Definition acyclic (plugins : registry) : Prop :=
  ∀ x, ¬ tc (dep_edge plugins) x x.

(** Every registered dependency of a member of [out] occurs strictly
    earlier in [out]. *)
Definition deps_before (plugins : registry) (out : list string) : Prop :=
  ∀ i x p d, out !! i = Some x → plugins !! x = Some p → d ∈ p_dependencies p →
    is_Some (plugins !! d) → ∃ j, j < i ∧ out !! j = Some d.

(** The [result] array holds distinct registered names. *)
Definition res_ok (plugins : registry) (R : list string) : Prop :=
  NoDup R ∧ ∀ x, x ∈ R → is_Some (plugins !! x).

(** How one call of [visit] changes the state. *)
Definition grows (plugins : registry) (s s' : gset string * list string) : Prop :=
  fst s ⊆ fst s' ∧ (∀ x, x ∈ snd s → x ∈ snd s') ∧ (res_ok plugins (snd s) → res_ok plugins (snd s')).

(** Invariant of the traversal for an acyclic graph; [K] is the stack of
    names whose [visit] call is still running. *)
Definition order_inv (plugins : registry) (K : list string) (s : gset string * list string) : Prop :=
  res_ok plugins (snd s) ∧ deps_before plugins (snd s) ∧ (∀ x, x ∈ snd s → x ∈ fst s) ∧
  (∀ v, v ∈ fst s → plugins !! v = None ∨ v ∈ snd s ∨ v ∈ K).

(** Reachability of a missing dependency. *)
Definition missing_dep_reachable (plugins : registry) (name m : string) : Prop :=
  ∃ x, rtc (dep_edge plugins) name x ∧ dep_edge plugins x m ∧ plugins !! m = None.

Definition reg_AB : registry :=
  <["A" := mkPlugin "A" "1.0.0" ["B"]]> (<["B" := mkPlugin "B" "1.0.0" ["A"]]> ∅).

(** B has no dependency and A depends on B. *)
Definition reg_A_B : registry :=
  <["A" := mkPlugin "A" "1.0.0" ["B"]]> (<["B" := mkPlugin "B" "1.0.0" []]> ∅).

(** A depends on itself and on the missing M. *)
Definition reg_self_missing : registry :=
  <["A" := mkPlugin "A" "1.0.0" ["A"; "M"]]> ∅.

(** A depends on the missing N and M. *)
Definition reg_two_missing : registry :=
  <["A" := mkPlugin "A" "1.0.0" ["N"; "M"]]> ∅.

(** The [outputFilePath] of [processFile]. *)
Definition outputFilePath (template : string → context → render_result)
    (path_join : string → string → string) (ctx : context) (file : string) : string :=
  path_join (outputDir ctx) (fst (rewrite_path template ctx file)).

(** A file system for concrete runs: [path.join] of a directory and a
    relative path without [.] or [..] segments, [path.dirname] (not
    inspected by the runs below), the identity as UTF-8 decoding of ASCII
    bytes, and every [ensureDir] and [writeFile] succeeding. *)
Definition fixture_join (a b : string) : string := a ++ "/" ++ b.
Definition fixture_dirname (p : string) : string := p.
Definition fixture_decode (b : string) : string := b.
Definition fixture_ok (p : string) : bool := true.
Definition fixture_error (p : string) : string := "EACCES: " ++ p.

(** [processFile] of one file with the given content, in the context of
    the spec's examples, from an empty log and an empty output directory. *)
Definition run_one (file content : string) : (string + unit) * io :=
  processFile lodash_fields (λ _, inr content) fixture_join fixture_dirname fixture_decode
    fixture_ok fixture_ok fixture_error file ctx_orders (mkIO [] []).

(* ------------------------------------------------------------------ *)
(** ** Template sources ([src/templates/sources/index.js], [git.js]) and the
    generate command's helpers ([getDefaultPackage], [commaSeparatedList]) *)

(** Closure invariant: a visited registered name is on the stack [K] of
    running calls, or it has been pushed and its dependencies are visited. *)
Definition closed_inv (plugins : registry) (K : list string) (s : gset string * list string) : Prop :=
  ∀ v p, v ∈ fst s → plugins !! v = Some p →
    v ∈ K ∨ (v ∈ snd s ∧ ∀ d, d ∈ p_dependencies p → d ∈ fst s).


(** A file that can be read and written: [processFile] returns normally
    and appends one output, at [outputFilePath], to the written files. *)
Definition file_ok (template : string → context → render_result)
    (getFileContent : string → string + string) (path_join : string → string → string)
    (path_dirname : string → string) (ensureDir_ok writeFile_ok : string → bool)
    (ctx : context) (file : string) : Prop :=
  is_Some (match getFileContent file with inr c => Some c | inl _ => None end) ∧
  ensureDir_ok (path_dirname (outputFilePath template path_join ctx file)) = true ∧
  writeFile_ok (outputFilePath template path_join ctx file) = true.


(** A JavaScript object with string-valued properties: a present key maps
    to [Some v] for a string [v] and to [None] for [undefined]. *)
Abbreviation jsobj := (gmap string (option string)).

(** [obj.k]: [undefined] when the key is absent or set to [undefined]. *)
Definition get_prop (o : jsobj) (k : string) : option string :=
  match o !! k with Some v => v | None => None end.

(** [obj.k || d] *)
Definition or_else (v : option string) (d : string) : string :=
  match v with Some s => if truthy s then s else d | None => d end.

(** A [GitTemplateSource]: its [templateName] and [config]; [tempDir]
    (from [Date.now()]) is not modelled. *)
Record GitTemplateSource := mkGitTemplateSource {
  git_templateName : string;
  git_config : jsobj
}.

(** [getRepoUrl()] *)
Definition getRepoUrl (g : GitTemplateSource) : string :=
  let url := get_prop (git_config g) "url" in
  if truthy (or_else url "") then or_else url ""
  else
    let org := or_else (get_prop (git_config g) "org") "rcdelacruz" in
    let repo := or_else (get_prop (git_config g) "repo") ("platform-template-" ++ git_templateName g) in
    "https://github.com/" ++ org ++ "/" ++ repo ++ ".git".

(** [getBranch()] *)
Definition getBranch (g : GitTemplateSource) : string :=
  or_else (get_prop (git_config g) "branch") "main".

(** [getTemplateSource(templateName, options)], with [templateConfigs]
    the object [config.templates || {}] of the configuration file. *)
Definition getTemplateSource (templateConfigs : gmap string jsobj) (templateName : string)
    (options : jsobj) : M GitTemplateSource :=
  let templateConfig := default ∅ (templateConfigs !! templateName) in
  let finalConfig := options ∪ templateConfig in
  let sourceType := or_else (get_prop finalConfig "source") "git" in
  logger Debug ("Using template source type: " ++ sourceType ++ " for template: " ++ templateName) ;;;
  if String.eqb sourceType "git" then ret (mkGitTemplateSource templateName finalConfig)
  else if String.eqb sourceType "local" then throw "Local template source not yet implemented"
  else if String.eqb sourceType "npm" then throw "NPM template source not yet implemented"
  else throw ("Unknown template source type: " ++ sourceType).

(** The options object the generate command passes:
    [{ org: options.org, repo: options.repo, branch: options.branch }]. *)
Definition generate_source_options (org repo branch : option string) : jsobj :=
  <["org" := org]> (<["repo" := repo]> (<["branch" := branch]> ∅)).

(** The loop of [listTemplates] that appends the local templates missing
    from the list. *)
Definition add_missing (templates localTemplates : list string) : list string :=
  foldl (λ acc t, if bool_decide (t ∈ acc) then acc else (acc ++ [t])%list) templates localTemplates.

(** [listTemplates()]: [configKeys] is [Object.keys(config.templates || {})],
    [localExists] the answer of [fs.pathExists] on the local template
    directory and [readdir] the result of [fs.readdir] on it. *)
Definition listTemplates (configKeys : list string) (localExists : bool)
    (readdir : string + list string) : string + list string :=
  if localExists then
    match readdir with
    | inl e => inl e
    | inr localTemplates => inr (add_missing configKeys localTemplates)
    end
  else inr configKeys.

Definition acme_templates : gmap string jsobj :=
  <["api" := <["org" := Some "acme"]> (<["repo" := Some "api-starter"]> (<["branch" := Some "dev"]> ∅))]> ∅.


(** [/[a-z0-9]/] *)
Definition is_lower_alnum (c : ascii) : bool :=
  let n := nat_of_ascii c in
  (Nat.leb 97 n && Nat.leb n 122) || (Nat.leb 48 n && Nat.leb n 57).

(** [.replace(/[^a-z0-9]/g, '.')] *)
Fixpoint sanitize (s : string) : string :=
  match s with
  | EmptyString => EmptyString
  | String c r => String (if is_lower_alnum c then c else ".") (sanitize r)
  end.

Definition starts_with_dot (s : string) : bool :=
  match s with String c _ => Ascii.eqb c "." | EmptyString => false end.

(** [.replace(/\.{2,}/g, '.')]: a run of two or more dots becomes one dot,
    so every dot followed by a dot is dropped. *)
Fixpoint collapse_dots (s : string) : string :=
  match s with
  | EmptyString => EmptyString
  | String c r =>
      if Ascii.eqb c "." && starts_with_dot r then collapse_dots r
      else String c (collapse_dots r)
  end.

Fixpoint all_dots (s : string) : bool :=
  match s with
  | EmptyString => true
  | String c r => Ascii.eqb c "." && all_dots r
  end.

(** The alternative [^\.+] at the start of the subject. *)
Fixpoint skip_dots (s : string) : string :=
  match s with
  | String c r => if Ascii.eqb c "." then skip_dots r else s
  | EmptyString => EmptyString
  end.

(** The alternative [\.+$]: it matches at the first position from which
    only dots remain. *)
Fixpoint drop_trailing_dots (s : string) : string :=
  match s with
  | EmptyString => EmptyString
  | String c r => if Ascii.eqb c "." && all_dots r then EmptyString else String c (drop_trailing_dots r)
  end.

(** [.replace(/^\.+|\.+$/g, '')] *)
Definition trim_dots (s : string) : string := drop_trailing_dots (skip_dots s).

(** [getDefaultPackage(name)] of the generate command. *)
Definition getDefaultPackage (name : string) : string :=
  let sanitized := sanitize (toLowerCase name) in
  let normalized := collapse_dots sanitized in
  let trimmed := trim_dots normalized in
  if includes trimmed "." then trimmed else "com.example." ++ trimmed.

(** Whether [s] has a character of [[a-z0-9]]. *)
Fixpoint has_alnum (s : string) : bool :=
  match s with
  | EmptyString => false
  | String c r => is_lower_alnum c || has_alnum r
  end.

(** Characters of [[a-z0-9.]], and no two dots in a row; [prev_dot]: the
    character before [s] is a dot. *)
Fixpoint loose (prev_dot : bool) (s : string) : bool :=
  match s with
  | EmptyString => true
  | String c r =>
      if Ascii.eqb c "." then negb prev_dot && loose true r
      else is_lower_alnum c && loose false r
  end.

(** Non-empty segments of [[a-z0-9]] separated by single dots: the form
    of a Java package name made of lower-case letters and digits. *)
Fixpoint segs_ok (prev_dot : bool) (s : string) : bool :=
  match s with
  | EmptyString => negb prev_dot
  | String c r =>
      if Ascii.eqb c "." then negb prev_dot && segs_ok true r
      else is_lower_alnum c && segs_ok false r
  end.

Definition is_package (s : string) : bool := segs_ok true s.

(** Characters of [[a-z0-9.]]. *)
Fixpoint chars_ok (s : string) : bool :=
  match s with
  | EmptyString => true
  | String c r => (is_lower_alnum c || Ascii.eqb c ".") && chars_ok r
  end.









Fixpoint no_char (c : ascii) (s : string) : bool :=
  match s with
  | EmptyString => true
  | String d r => negb (Ascii.eqb d c) && no_char c r
  end.

Example ex_cycle : getPluginsInDependencyOrder reg_AB ["A"] = Some ["B"; "A"].
Proof. vm_compute. reflexivity. Qed.
Example ex_A_B : getPluginsInDependencyOrder reg_A_B ["A"; "A"; "C"] = Some ["B"; "A"].
Proof. vm_compute. reflexivity. Qed.
Example ex_resolve_cycle : resolveDependencies_top reg_AB "A" = Throw (ECircular "A").
Proof. vm_compute. reflexivity. Qed.

(* ------------------------------------------------------------------ *)
(** ** Examples of the path, string and template functions *)

Example ex_ext1 : extname "src/Main.java" = ".java". Proof. reflexivity. Qed.
Example ex_ext2 : extname ".gitignore" = "". Proof. reflexivity. Qed.
Example ex_ext3 : extname "a/..foo" = ".foo". Proof. reflexivity. Qed.
Example ex_ext4 : extname "a/b." = ".". Proof. reflexivity. Qed.
Example ex_ext5 : extname "a.b/" = ".b". Proof. reflexivity. Qed.
Example ex_base1 : basename "a/b/Dockerfile" = "Dockerfile". Proof. reflexivity. Qed.
Example ex_base2 : basename "a/b/" = "b". Proof. reflexivity. Qed.
Example ex_text : map isTextFile ["README.md"; "x/Dockerfile"; ".gitignore"; "logo.png"; "A.JAVA"] = [true; true; true; false; true]. Proof. reflexivity. Qed.
Example ex_repl : replace_all "a.b.c" "." "/" = "a/b/c". Proof. reflexivity. Qed.
Example ex_repl2 : replace_all "x ${projectName} y ${projectName}" "${projectName}" "P$$" = "x P$ y P$". Proof. reflexivity. Qed.
Example ex_repl3 : replace_first "__packageDir__/__packageDir__/M.java" "__packageDir__" "com/a" = "com/a/__packageDir__/M.java". Proof. reflexivity. Qed.
Example ex_lod1 : lodash_fields "x {{ name }} y" ctx_orders = Rendered "x orders-api y". Proof. reflexivity. Qed.
Example ex_lod2 : lodash_fields "{{}}<%- name %>" ctx_orders = Rendered "{{}}orders-api". Proof. reflexivity. Qed.
Example ex_lod3 : lodash_fields "{{ nope }}" ctx_orders = RenderError "nope is not defined". Proof. reflexivity. Qed.
Example ex_path : fst (rewrite_path (lodash_fields) ctx_orders "__packageDir__/Main.java") = "com/acme/orders/Main.java". Proof. reflexivity. Qed.
Example ex_content : fst (rewrite_content (lodash_fields) ctx_orders "a.yml" "server: ${projectName}") = "server: orders-api". Proof. reflexivity. Qed.

(* ------------------------------------------------------------------ *)
(** ** Loops *)

Lemma for_each_opt_ind {A B : Type} (I : B → Prop) (P : B → B → Prop)
    (Q : A → B → Prop) (body : A → B → option B) (l : list A) (st st' : B) :
  (∀ s, P s s) → (∀ s1 s2 s3, P s1 s2 → P s2 s3 → P s1 s3) →
  (∀ x s s', Q x s → P s s' → Q x s') →
  (∀ x s s', x ∈ l → I s → body x s = Some s' → I s' ∧ P s s' ∧ Q x s') →
  I st → for_each_opt body l st = Some st' → I st' ∧ P st st' ∧ ∀ x, x ∈ l → Q x st'.
Proof.
  intros Prefl Ptrans HQ Hstep. revert st Hstep.
  induction l as [|x l IH]; intros st Hstep Hst Hrun; simpl in Hrun.
  - injection Hrun as <-. split; [done|]. split; [apply Prefl|]. intros x Hx. set_solver.
  - destruct (body x st) as [s1|] eqn:Hb; [|discriminate].
    destruct (Hstep x st s1) as (Hs1 & Hp1 & Hq1); [set_solver|done|done|].
    destruct (IH s1) as (Hi & Hp & Hq); [intros; apply Hstep; set_solver|exact Hs1|exact Hrun|].
    split; [done|]. split; [by eapply Ptrans|].
    intros y Hy. apply elem_of_cons in Hy as [->|Hy]; [|by apply Hq].
    by apply (HQ _ s1).
Qed.

Lemma for_each_opt_total {A B : Type} (I : B → Prop) (body : A → B → option B)
    (l : list A) (st : B) :
  (∀ x s, x ∈ l → I s → ∃ s', body x s = Some s' ∧ I s') →
  I st → ∃ st', for_each_opt body l st = Some st'.
Proof.
  revert st. induction l as [|x l IH]; intros st Hstep Hst; simpl.
  - eauto.
  - destruct (Hstep x st) as (s1 & -> & Hs1); [set_solver|done|].
    apply IH; [intros; apply Hstep; set_solver|done].
Qed.

(* ------------------------------------------------------------------ *)
(** ** [getPluginsInDependencyOrder]: termination and invariants *)

Section Ordering.
Context (plugins : registry).

Lemma grows_refl s : grows plugins s s.
Proof. unfold grows. split_and!; auto. Qed.

Lemma grows_trans s1 s2 s3 : grows plugins s1 s2 → grows plugins s2 s3 → grows plugins s1 s3.
Proof. unfold grows. intros (?&?&?) (?&?&?). split_and!; [set_solver|auto|auto]. Qed.

Lemma res_ok_push R n :
  res_ok plugins R → is_Some (plugins !! n) →
  res_ok plugins (if bool_decide (n ∈ R) then R else (R ++ [n])%list).
Proof.
  intros [Hnd Hreg] Hn. case_bool_decide as Hin; [by split|]. split.
  - apply NoDup_app. split_and!; [done| |apply NoDup_singleton]. set_solver.
  - intros x Hx. apply elem_of_app in Hx as [Hx|Hx]; [auto|]. set_solver.
Qed.

Lemma visit_mono f n s s' :
  visit plugins f n s = Some s' → grows plugins s s' ∧ n ∈ fst s'.
Proof.
  revert n s s'.
  induction f as [|f IH]; intros n [V R] [V' R'] Hv; simpl in Hv;
    (destruct (decide (n ∈ V)) as [Hin|Hin];
      [injection Hv as <- <-; split; [apply grows_refl|done]|]).
  - destruct (plugins !! n); [discriminate|].
    injection Hv as <- <-. unfold grows; simpl. split_and!; auto; set_solver.
  - destruct (plugins !! n) as [p|] eqn:Hn;
      [|injection Hv as <- <-; unfold grows; simpl; split_and!; auto; set_solver].
    destruct (for_each_opt (visit plugins f) (p_dependencies p) ({[n]} ∪ V, R))
      as [[V2 R2]|] eqn:Hl; [|discriminate].
    injection Hv as <- <-.
    destruct (for_each_opt_ind (λ _, True) (grows plugins) (λ _ _, True) (visit plugins f)
                (p_dependencies p) ({[n]} ∪ V, R) (V2, R2) grows_refl grows_trans)
      as (_ & Hg & _);
      [auto| |done|exact Hl|].
    { intros x s s1 _ _ Hb. split; [done|]. split; [|done]. by apply (IH x). }
    destruct Hg as (HV & HR & Hok); simpl in *.
    unfold grows; simpl. split_and!.
    + set_solver.
    + intros x Hx. case_bool_decide; [auto|]. apply elem_of_app; left; auto.
    + intros Hok0. apply res_ok_push; [auto|done].
    + set_solver.
Qed.

Lemma visit_total f n s :
  size (dom plugins ∖ fst s) < f → ∃ s', visit plugins f n s = Some s'.
Proof.
  revert n s. induction f as [|f IH]; intros n [V R] Hsz; simpl in *; [lia|].
  destruct (decide (n ∈ V)) as [Hin|Hin]; [eauto|].
  destruct (plugins !! n) as [p|] eqn:Hn; [|eauto].
  destruct (for_each_opt_total (λ s, {[n]} ∪ V ⊆ fst s) (visit plugins f)
              (p_dependencies p) ({[n]} ∪ V, R)) as [[V2 R2] ->].
  - intros x [V1 R1] _ Hs1. simpl in Hs1.
    assert (Hlt : size (dom plugins ∖ V1) < size (dom plugins ∖ V)).
    { apply subset_size. split; [set_solver|].
      intros Hsub. rewrite elem_of_subseteq in Hsub.
      assert (Hd : n ∈ dom plugins) by (eapply elem_of_dom_2; exact Hn).
      assert (n ∈ dom plugins ∖ V1) as Hc by (apply Hsub; set_solver).
      set_solver. }
    destruct (IH x (V1, R1)) as [s' Hs']; [simpl; lia|].
    exists s'. split; [done|].
    destruct (visit_mono _ _ _ _ Hs') as [[Hg _] _]. simpl in Hg. set_solver.
  - simpl. set_solver.
  - eauto.
Qed.

Lemma deps_before_push R n p :
  deps_before plugins R → plugins !! n = Some p →
  (∀ d, d ∈ p_dependencies p → is_Some (plugins !! d) → d ∈ R) →
  deps_before plugins (if bool_decide (n ∈ R) then R else (R ++ [n])%list).
Proof.
  intros Hb Hn Hd. case_bool_decide; [done|].
  intros i x q d Hi Hx Hdq Hreg.
  apply lookup_app_Some in Hi as [Hi|[Hle Hi]].
  - destruct (Hb i x q d Hi Hx Hdq Hreg) as (j & Hj & Hjd).
    exists j. split; [done|]. rewrite lookup_app_l; [done|]. by eapply lookup_lt_Some.
  - apply list_lookup_singleton_Some in Hi as [Hi0 <-].
    rewrite Hn in Hx. injection Hx as <-.
    pose proof (Hd d Hdq Hreg) as Hdin.
    apply list_elem_of_lookup in Hdin as [j Hj].
    exists j. pose proof (lookup_lt_Some _ _ _ Hj).
    split; [lia|]. rewrite lookup_app_l; [done|lia].
Qed.

Lemma visit_order (Hacyc : acyclic plugins) f n K s s' :
  order_inv plugins K s → (∀ k, k ∈ K → tc (dep_edge plugins) k n) →
  visit plugins f n s = Some s' →
  order_inv plugins K s' ∧ (is_Some (plugins !! n) → n ∈ snd s').
Proof.
  revert n K s s'.
  induction f as [|f IH]; intros n K [V R] [V' R'] Hinv HK Hv; simpl in Hv;
    (destruct (decide (n ∈ V)) as [Hin|Hin];
      [injection Hv as <- <-; split; [done|];
       intros Hreg; destruct Hinv as (_ & _ & _ & Hv);
       destruct (Hv n Hin) as [Hnone|[Hr|Hk]];
       [rewrite Hnone in Hreg; by destruct Hreg|done|by destruct (Hacyc n (HK n Hk))]|]).
  - destruct (plugins !! n) eqn:Hn; [discriminate|].
    injection Hv as <- <-. destruct Hinv as (Hok & Hb & HRV & HV).
    split; [|intros [? ?]; discriminate].
    split_and!; simpl in *; [done|done|set_solver|].
    intros v Hvin. apply elem_of_union in Hvin as [Hvin|Hvin]; [|auto].
    apply elem_of_singleton in Hvin as ->. by left.
  - destruct (plugins !! n) as [p|] eqn:Hn.
    2:{ injection Hv as <- <-. destruct Hinv as (Hok & Hb & HRV & HV).
        split; [|intros [? ?]; discriminate].
        split_and!; simpl in *; [done|done|set_solver|].
        intros v Hvin. apply elem_of_union in Hvin as [Hvin|Hvin]; [|auto].
        apply elem_of_singleton in Hvin as ->. by left. }
    destruct (for_each_opt (visit plugins f) (p_dependencies p) ({[n]} ∪ V, R))
      as [[V2 R2]|] eqn:Hl; [|discriminate].
    injection Hv as <- <-.
    destruct (for_each_opt_ind (order_inv plugins (n :: K)) (grows plugins) (λ x s, x ∈ fst s)
                (visit plugins f) (p_dependencies p) ({[n]} ∪ V, R) (V2, R2)
                grows_refl grows_trans) as (Hinv2 & Hg & Hall);
      [intros x s1 s2 Hx [Hg _]; set_solver| | |exact Hl|].
    { intros x s1 s2 Hx Hs1 Hb. destruct (visit_mono _ _ _ _ Hb) as [Hg Hx2].
      destruct (IH x (n :: K) s1 s2) as [Hs2 _]; [done| |done|by split_and!].
      intros k Hk. apply elem_of_cons in Hk as [->|Hk].
      - apply tc_once. by exists p.
      - eapply tc_r; [by apply HK|]. by exists p. }
    { destruct Hinv as (Hok & Hb & HRV & HV). split_and!; simpl in *; [done|done|set_solver|].
      intros v Hvin. apply elem_of_union in Hvin as [Hvin|Hvin].
      - apply elem_of_singleton in Hvin as ->. right; right. set_solver.
      - destruct (HV v Hvin) as [?|[?|?]]; [by left|by right; left|right; right; set_solver]. }
    destruct Hinv2 as (Hok2 & Hb2 & HRV2 & HV2). simpl in *.
    destruct Hg as (HVV2 & HRR2 & _). simpl in *.
    assert (Hdeps : ∀ d, d ∈ p_dependencies p → is_Some (plugins !! d) → d ∈ R2).
    { intros d Hd Hreg. destruct (HV2 d (Hall d Hd)) as [Hnone|[Hr|Hk]].
      - rewrite Hnone in Hreg. by destruct Hreg.
      - done.
      - exfalso. apply elem_of_cons in Hk as [<-|Hk].
        + apply (Hacyc d). apply tc_once. by exists p.
        + apply (Hacyc d). eapply tc_r; [by apply HK|]. by exists p. }
    assert (Hnin : n ∈ (if bool_decide (n ∈ R2) then R2 else (R2 ++ [n])%list)).
    { case_bool_decide; [done|]. apply elem_of_app; right; set_solver. }
    split; [|done].
    split_and!; simpl.
    + apply res_ok_push; [done|by exists p].
    + by eapply deps_before_push.
    + intros x Hx. case_bool_decide; [auto|].
      apply elem_of_app in Hx as [Hx|Hx]; [auto|]. set_solver.
    + intros v Hvin. destruct (HV2 v Hvin) as [?|[Hr|Hk]]; [by left| |].
      * right; left. case_bool_decide; [done|]. apply elem_of_app; by left.
      * apply elem_of_cons in Hk as [->|Hk]; [by right; left|by right; right].
Qed.

End Ordering.

(* ------------------------------------------------------------------ *)
(** ** [resolveDependencies] *)

Lemma for_each_unit_ret (body : string → unit → outcome unit) l :
  for_each body l tt = Ret tt → ∀ x, x ∈ l → body x tt = Ret tt.
Proof.
  induction l as [|y l IH]; simpl; intros Hr x Hx; [set_solver|].
  destruct (body y tt) as [[]| |] eqn:Hb; try discriminate.
  apply elem_of_cons in Hx as [->|Hx]; auto.
Qed.

Lemma for_each_unit_throw (body : string → unit → outcome unit) l e :
  for_each body l tt = Throw e → ∃ x, x ∈ l ∧ body x tt = Throw e.
Proof.
  induction l as [|y l IH]; simpl; intros Hr; [discriminate|].
  destruct (body y tt) as [[]|e'|] eqn:Hb; try discriminate.
  - destruct (IH Hr) as (x & Hx & Hbx). exists x. split; [set_solver|done].
  - injection Hr as ->. exists y. split; [set_solver|done].
Qed.

Lemma for_each_unit_nofuel (body : string → unit → outcome unit) l :
  for_each body l tt = NoFuel → ∃ x, x ∈ l ∧ body x tt = NoFuel.
Proof.
  induction l as [|y l IH]; simpl; intros Hr; [discriminate|].
  destruct (body y tt) as [[]|e'|] eqn:Hb; try discriminate.
  - destruct (IH Hr) as (x & Hx & Hbx). exists x. split; [set_solver|done].
  - exists y. split; [set_solver|done].
Qed.

Section Resolve.
Context (plugins : registry).

Lemma resolve_nofuel f n V :
  size (dom plugins ∖ V) < f → resolveDependencies plugins f n V ≠ NoFuel.
Proof.
  revert n V. induction f as [|f IH]; intros n V Hsz; [lia|]. simpl.
  destruct (decide (n ∈ V)) as [Hin|Hin]; [discriminate|].
  unfold getPlugin. destruct (plugins !! n) as [p|] eqn:Hn; [|discriminate].
  destruct f as [|f']; [simpl in Hsz|].
  - assert (Hd : n ∈ dom plugins ∖ V) by (apply elem_of_difference; split;
      [eapply elem_of_dom_2; exact Hn|done]).
    assert (Hs : (size ({[n]} : gset string) ≤ size (dom plugins ∖ V))%nat)
      by (apply subseteq_size; set_solver).
    rewrite size_singleton in Hs. lia.
  - intros Hnf. apply for_each_unit_nofuel in Hnf as (x & Hx & Hb).
    destruct (negb (hasPlugin plugins x)); [discriminate|].
    apply (IH x ({[n]} ∪ V)); [|exact Hb].
    assert (Hlt : size (dom plugins ∖ ({[n]} ∪ V)) < size (dom plugins ∖ V)).
    { apply subset_size. split; [set_solver|].
      intros Hsub. rewrite elem_of_subseteq in Hsub.
      assert (Hd : n ∈ dom plugins) by (eapply elem_of_dom_2; exact Hn).
      assert (n ∈ dom plugins ∖ ({[n]} ∪ V)) as Hc by (apply Hsub; set_solver).
      set_solver. }
    lia.
Qed.

Lemma resolve_ret f n V :
  resolveDependencies plugins f n V = Ret tt →
  ∃ p, plugins !! n = Some p ∧ ∀ d, d ∈ p_dependencies p →
    is_Some (plugins !! d) ∧ ∃ f' V', resolveDependencies plugins f' d V' = Ret tt.
Proof.
  destruct f as [|f]; simpl;
    (destruct (decide (n ∈ V)); [discriminate|]);
    unfold getPlugin; destruct (plugins !! n) as [p|] eqn:Hn; intros Hr; try discriminate.
  exists p. split; [done|]. intros d Hd.
  pose proof (for_each_unit_ret _ _ Hr d Hd) as Hb. simpl in Hb.
  unfold hasPlugin in Hb. case_bool_decide as Hh; simpl in Hb; [|discriminate].
  split; [done|]. eauto.
Qed.

Lemma resolve_ret_reach f n V y :
  resolveDependencies plugins f n V = Ret tt → rtc (dep_edge plugins) n y →
  ∃ f' V', resolveDependencies plugins f' y V' = Ret tt.
Proof.
  intros Hr Hreach. revert f V Hr.
  induction Hreach as [n|n z y Hnz Hzy IH]; intros f V Hr; [eauto|].
  destruct (resolve_ret _ _ _ Hr) as (p & Hn & Hdeps).
  destruct Hnz as (q & Hq & Hz). rewrite Hn in Hq. injection Hq as <-.
  destruct (Hdeps z Hz) as (_ & f' & V' & Hr'). eauto.
Qed.

Lemma resolve_throw_form f n V e :
  resolveDependencies plugins f n V = Throw e →
  (∃ c, e = ECircular c) ∨ (e = ENotFound n ∧ plugins !! n = None) ∨
  (∃ m x, e = EUnresolved m x ∧ rtc (dep_edge plugins) n x ∧ dep_edge plugins x m ∧
          plugins !! m = None).
Proof.
  revert n V e. induction f as [|f IH]; intros n V e; simpl;
    (destruct (decide (n ∈ V)); [intros Hr; injection Hr as <-; left; eauto|]);
    unfold getPlugin; destruct (plugins !! n) as [p|] eqn:Hn;
    try (intros Hr; injection Hr as <-; right; left; done); try discriminate.
  intros Hr. apply for_each_unit_throw in Hr as (d & Hd & Hb).
  unfold hasPlugin in Hb. case_bool_decide as Hh; simpl in Hb.
  - destruct (IH _ _ _ Hb) as [Hc|[[_ Hnone]|(m & x & -> & Hdx & Hxm & Hm)]].
    + by left.
    + rewrite Hnone in Hh. by destruct Hh.
    + right; right. exists m, x. split_and!; [done| |done|done].
      eapply rtc_l; [|exact Hdx]. by exists p.
  - injection Hb as <-. right; right. exists d, n. split_and!; [done|done|by exists p|].
    by apply eq_None_not_Some.
Qed.

End Resolve.

(* ------------------------------------------------------------------ *)
(** ** Registry helper lemmas *)

Lemma order_some (plugins : registry) (names : list string) :
  ∃ out, getPluginsInDependencyOrder plugins names = Some out ∧ res_ok plugins out.
Proof.
  unfold getPluginsInDependencyOrder.
  destruct (for_each_opt_total (λ _, True) (visit plugins (S (size (dom plugins))))
              names (∅, [])) as [[V R] Hr]; [|done|].
  { intros x s _ _.
    destruct (visit_total plugins (S (size (dom plugins))) x s) as [s' Hs'];
      [|by exists s'].
    pose proof (subseteq_size (dom plugins ∖ fst s) (dom plugins) ltac:(set_solver)).
    lia. }
  rewrite Hr. exists R. split; [done|].
  destruct (for_each_opt_ind (λ s, res_ok plugins (snd s)) (grows plugins) (λ _ _, True)
              (visit plugins (S (size (dom plugins)))) names (∅, []) (V, R)
              (grows_refl plugins) (grows_trans plugins)) as (Hok & _ & _);
    [auto| | |exact Hr|done].
  - intros x s s' _ Hs Hb. destruct (visit_mono plugins _ _ _ _ Hb) as [Hg _].
    split_and!; [|done|done]. destruct Hg as (_ & _ & Hg). auto.
  - split; [apply NoDup_nil_2|]. intros x Hx. set_solver.
Qed.

Lemma acyclic_rank (plugins : registry) (r : string → nat) :
  (∀ x y, dep_edge plugins x y → r y < r x) → acyclic plugins.
Proof.
  intros Hr x Hc.
  assert (Htc : ∀ a b, tc (dep_edge plugins) a b → r b < r a).
  { intros a b Hab. induction Hab as [a b Hab|a b c Hab Hbc IH].
    - by apply Hr.
    - pose proof (Hr a b Hab). lia. }
  pose proof (Htc x x Hc). lia.
Qed.

Lemma reg_A_B_acyclic : acyclic reg_A_B.
Proof.
  apply (acyclic_rank _ (λ x, if bool_decide (x = "A") then 1 else 0)).
  intros x y (p & Hp & Hy). unfold reg_A_B in Hp.
  apply lookup_insert_Some in Hp as [[<- <-]|[Hx Hp]].
  - simpl in Hy. apply list_elem_of_singleton in Hy as ->. vm_compute. lia.
  - apply lookup_insert_Some in Hp as [[<- <-]|[_ Hp]].
    + simpl in Hy. set_solver.
    + by rewrite lookup_empty in Hp.
Qed.

Lemma keys_are_names_register (plugins : registry) (p : plugin) :
  keys_are_names plugins → keys_are_names (snd (register plugins p)).
Proof.
  unfold register. intros Hk. case_decide; simpl; [done|].
  intros k q Hq. apply lookup_insert_Some in Hq as [[<- <-]|[_ Hq]]; [done|]. auto.
Qed.

Lemma keys_are_names_register_all (plugins : registry) (ps : list plugin) :
  keys_are_names plugins → keys_are_names (register_all plugins ps).
Proof.
  unfold register_all. revert plugins.
  induction ps as [|p ps IH]; intros plugins Hk; simpl; [done|].
  apply IH. by apply keys_are_names_register.
Qed.

(* ------------------------------------------------------------------ *)
(** ** String and template lemmas *)

Lemma includes_cons_false (c : ascii) (r pat : string) :
  includes (String c r) pat = false → strip_prefix pat (String c r) = None ∧ includes r pat = false.
Proof. simpl. destruct (strip_prefix pat (String c r)); [discriminate|auto]. Qed.

Lemma replace_all_go_absent (fuel : nat) (pat rep before r : string) :
  includes r pat = false → replace_all_go fuel pat rep before r = r.
Proof.
  revert fuel before. induction r as [|c r IH]; intros [|fuel] before Hin; simpl; try done.
  apply includes_cons_false in Hin as [Hs Hin]. simpl in Hs. rewrite Hs.
  by rewrite IH.
Qed.

Lemma replace_all_absent (s pat rep : string) :
  includes s pat = false → replace_all s pat rep = s.
Proof. apply replace_all_go_absent. Qed.

Lemma substitute_tokens_absent (ctx : context) (text : string) :
  includes text "${packageName}" = false → includes text "${projectName}" = false →
  substitute_tokens ctx text = text.
Proof.
  intros Hp Hn. unfold substitute_tokens.
  destruct (truthy (packageName ctx)), (truthy (name ctx)); simpl;
    rewrite ?(replace_all_absent text _ _ Hp), ?(replace_all_absent text _ _ Hn); done.
Qed.

Lemma split_at_first_cons_some (pat s : string) (c : ascii) :
  is_Some (split_at_first pat s) → is_Some (split_at_first pat (String c s)).
Proof.
  intros [[b a] Hs]. simpl. destruct (strip_prefix pat (String c s)); [eauto|].
  rewrite Hs. eauto.
Qed.

Lemma strip_prefix_Some (pat s r : string) :
  strip_prefix pat s = Some r → s = pat ++ r.
Proof.
  revert s. induction pat as [|c pat IH]; intros [|d s] H; simpl in H.
  - by inversion H.
  - by inversion H.
  - discriminate.
  - destruct (Ascii.eqb_spec c d) as [->|]; [|discriminate].
    by rewrite (IH s H).
Qed.

(** An escape span is also an evaluate span. *)
Lemma escape_span_evaluate_span (s : string) :
  is_Some (delim_span "<%-" "%>" s) → is_Some (delim_span "<%" "%>" s).
Proof.
  unfold delim_span. intros [x H].
  destruct (strip_prefix "<%-" s) as [r|] eqn:E; [|discriminate].
  apply strip_prefix_Some in E as ->.
  destruct r as [|c r]; [discriminate|].
  replace (strip_prefix "<%" ("<%-" ++ String c r)) with (Some (String "-" (String c r)))
    by reflexivity.
  unfold find_close in *.
  destruct (split_at_first "%>" r) as [[b a]|] eqn:Hs; [|discriminate].
  destruct (split_at_first_cons_some "%>" r c) as [[b' a'] ->]; [by rewrite Hs|]. eauto.
Qed.

Lemma has_span_cons_false (opn cls : string) (c : ascii) (s : string) :
  has_span opn cls (String c s) = false →
  delim_span opn cls (String c s) = None ∧ has_span opn cls s = false.
Proof.
  simpl. destruct (delim_span opn cls (String c s)); [discriminate|auto].
Qed.

Lemma append_empty_r (s : string) : (s ++ "")%string = s.
Proof.
  induction s as [|c s IH]; [done|].
  change (String c (s ++ "")%string = String c s). by rewrite IH.
Qed.

(** Without [{{..}}] and [<%..%>] spans, lodash's template is the identity,
    whatever the expression semantics. *)
Lemma lodash_template_no_span eval_expr run_statements (text : string) (ctx : context) :
  has_span "{{" "}}" text = false → has_span "<%" "%>" text = false →
  lodash_template eval_expr run_statements text ctx = Rendered text.
Proof.
  intros H1 H2. unfold lodash_template.
  assert (Hgen : ∀ fuel, existsb is_evaluate (lodash_scan fuel text) = false ∧
                   render_pieces eval_expr (lodash_scan fuel text) ctx = Rendered text).
  { clear run_statements. revert H1 H2.
    induction text as [|c s IH]; intros H1 H2 [|fuel]; cbn [lodash_scan];
      try (simpl; split; [done|by rewrite ?append_empty_r]).
    apply has_span_cons_false in H1 as [D1 H1].
    apply has_span_cons_false in H2 as [D2 H2].
    assert (D0 : delim_span "<%-" "%>" (String c s) = None).
    { destruct (delim_span "<%-" "%>" (String c s)) eqn:E; [|done].
      destruct (escape_span_evaluate_span (String c s)) as [? E']; [by rewrite E|].
      by rewrite D2 in E'. }
    unfold delim_at. rewrite D0, D1, D2. cbn [existsb render_pieces is_evaluate orb].
    destruct (IH H1 H2 fuel) as [-> ->]. done. }
  destruct (Hgen (S (String.length text))) as [-> ->]. done.
Qed.

(* ------------------------------------------------------------------ *)
(** ** Runs of [processFile] *)

Section ProcessRun.
Context (template : string → context → render_result) (getFileContent : string → string + string)
  (path_join : string → string → string) (path_dirname decode_utf8 : string → string)
  (ensureDir_ok writeFile_ok : string → bool) (fs_error : string → string).

Lemma log_all_run lv msgs st :
  log_all lv msgs st = (inr tt, mkIO (log st ++ map (pair lv) msgs) (written st)).
Proof.
  revert st. induction msgs as [|m ms IH]; intros [l w]; simpl.
  - by rewrite app_nil_r.
  - unfold bind, logger. simpl. rewrite IH. simpl. by rewrite <- app_assoc.
Qed.

(** A text file whose content is read and whose output can be written: the
    warnings of both interpolation steps are logged, and the rewritten
    content is written to [outputFilePath]. *)
Lemma processFile_text_run file ctx content st :
  getFileContent file = inr content → isTextFile file = true →
  ensureDir_ok (path_dirname (outputFilePath template path_join ctx file)) = true →
  writeFile_ok (outputFilePath template path_join ctx file) = true →
  processFile template getFileContent path_join path_dirname decode_utf8 ensureDir_ok
    writeFile_ok fs_error file ctx st =
  (inr tt, mkIO (log st ++ map (pair Warn) (snd (rewrite_path template ctx file))
                  ++ map (pair Warn) (snd (rewrite_content template ctx file (decode_utf8 content)))
                  ++ [(Debug, "Processed file: " ++ file ++ " -> " ++ fst (rewrite_path template ctx file))])
              (written st ++ [(outputFilePath template path_join ctx file,
                 TextData (fst (rewrite_content template ctx file (decode_utf8 content))))])).
Proof.
  intros Hc Ht He Hw. unfold outputFilePath in *.
  destruct (rewrite_path template ctx file) as [op pw] eqn:Erp.
  destruct (rewrite_content template ctx file (decode_utf8 content)) as [tc w] eqn:Erc.
  cbn in He, Hw |- *.
  unfold processFile, catch_log_rethrow, bind. rewrite Hc. cbn -[log_all rewrite_path rewrite_content].
  rewrite Erp. cbn -[log_all rewrite_path rewrite_content].
  rewrite log_all_run. cbn -[log_all rewrite_path rewrite_content].
  unfold ensureDir. rewrite He. cbn -[log_all rewrite_path rewrite_content].
  rewrite Ht, Erc. cbn -[log_all rewrite_path rewrite_content].
  rewrite log_all_run. unfold writeFile. rewrite Hw. cbn -[log_all rewrite_path rewrite_content].
  by rewrite !app_assoc.
Qed.

End ProcessRun.

(** Content rewriting with a template that renders the text as it is. *)
Lemma rewrite_content_identity template ctx file text :
  template text ctx = Rendered text →
  includes text "${packageName}" = false → includes text "${projectName}" = false →
  rewrite_content template ctx file text = (text, []).
Proof.
  intros Ht Hp Hn. unfold rewrite_content, interpolate_step. rewrite Ht.
  destruct (includes text "{{" && includes text "}}"); simpl;
    by rewrite substitute_tokens_absent.
Qed.

(** Content rewriting when the template throws. *)
Lemma rewrite_content_failure template ctx file text msg :
  includes text "{{" = true → includes text "}}" = true →
  template text ctx = RenderError msg →
  rewrite_content template ctx file text =
    (substitute_tokens ctx text,
     ["Failed to process template variables in " ++ file ++ ": " ++ msg]).
Proof.
  intros H1 H2 Ht. unfold rewrite_content, interpolate_step. by rewrite H1, H2, Ht.
Qed.

(* ------------------------------------------------------------------ *)
(** ** Reachability, runs of [processTemplate], and the helpers of the
    generate command and the template sources *)

Section Reach.
Context (plugins : registry).

(** Names marked visited by [visit n] are reachable from [n]; the names it
    pushes are visited. *)
Lemma visit_sound f n V R V' R' :
  visit plugins f n (V, R) = Some (V', R') →
  (∀ y, y ∈ V' → y ∈ V ∨ rtc (dep_edge plugins) n y) ∧
  (∀ y, y ∈ R' → y ∈ R ∨ y ∈ V').
Proof.
  revert n V R V' R'.
  induction f as [|f IH]; intros n V R V' R' Hv; simpl in Hv;
    (destruct (decide (n ∈ V)) as [Hin|Hin]; [injection Hv as <- <-; split; auto|]).
  - destruct (plugins !! n); [discriminate|]. injection Hv as <- <-.
    split; [|auto]. intros y Hy. apply elem_of_union in Hy as [Hy|Hy]; [|auto].
    apply elem_of_singleton in Hy as ->. right. apply rtc_refl.
  - destruct (plugins !! n) as [p|] eqn:Hn.
    2:{ injection Hv as <- <-. split; [|auto]. intros y Hy.
        apply elem_of_union in Hy as [Hy|Hy]; [|auto].
        apply elem_of_singleton in Hy as ->. right. apply rtc_refl. }
    destruct (for_each_opt (visit plugins f) (p_dependencies p) ({[n]} ∪ V, R))
      as [[V2 R2]|] eqn:Hl; [|discriminate].
    injection Hv as <- <-.
    destruct (for_each_opt_ind
                (λ s, (∀ y, y ∈ fst s → y ∈ V ∨ rtc (dep_edge plugins) n y) ∧
                      (∀ y, y ∈ snd s → y ∈ R ∨ y ∈ fst s) ∧ n ∈ fst s)
                (grows plugins) (λ _ _, True) (visit plugins f) (p_dependencies p)
                ({[n]} ∪ V, R) (V2, R2) (grows_refl plugins) (grows_trans plugins))
      as ((HV & HR & Hn2) & _ & _); [auto| | |exact Hl|].
    + intros d [V1 R1] [V3 R3] Hd (HV1 & HR1 & Hn1) Hb. simpl in *.
      destruct (IH _ _ _ _ _ Hb) as [HV3 HR3].
      destruct (visit_mono plugins _ _ _ _ Hb) as [Hg _].
      pose proof Hg as (Hsub & _ & _). simpl in Hsub.
      split; [|split; [exact Hg|done]].
      split_and!; [| |set_solver].
      * intros y Hy. destruct (HV3 y Hy) as [Hy1|Hy1]; [auto|].
        right. eapply rtc_l; [|exact Hy1]. by exists p.
      * intros y Hy. destruct (HR3 y Hy) as [Hy1|Hy1]; [|auto].
        destruct (HR1 y Hy1) as [|Hy2]; [auto|]. right. set_solver.
    + simpl. split_and!; [|auto|set_solver]. intros y Hy.
      apply elem_of_union in Hy as [Hy|Hy]; [|auto].
      apply elem_of_singleton in Hy as ->. right. apply rtc_refl.
    + simpl in *. split; [exact HV|]. intros y Hy.
      case_bool_decide; [auto|]. apply elem_of_app in Hy as [Hy|Hy]; [auto|].
      apply list_elem_of_singleton in Hy as ->. auto.
Qed.

Lemma visit_closed f n K s s' :
  closed_inv plugins K s → visit plugins f n s = Some s' → closed_inv plugins K s' ∧ n ∈ fst s'.
Proof.
  revert n K s s'.
  induction f as [|f IH]; intros n K [V R] [V' R'] Hinv Hv; simpl in Hv;
    (destruct (decide (n ∈ V)) as [Hin|Hin]; [injection Hv as <- <-; done|]).
  - destruct (plugins !! n) eqn:Hn; [discriminate|]. injection Hv as <- <-.
    split; [|set_solver]. intros v q Hv Hq. simpl in Hv.
    apply elem_of_union in Hv as [Hv|Hv].
    + apply elem_of_singleton in Hv as ->. congruence.
    + destruct (Hinv v q Hv Hq) as [|[Hr Hd]]; [auto|right; split; [done|set_solver]].
  - destruct (plugins !! n) as [p|] eqn:Hn.
    2:{ injection Hv as <- <-. split; [|set_solver]. intros v q Hv Hq. simpl in Hv.
        apply elem_of_union in Hv as [Hv|Hv].
        - apply elem_of_singleton in Hv as ->. congruence.
        - destruct (Hinv v q Hv Hq) as [|[Hr Hd]]; [auto|right; split; [done|set_solver]]. }
    destruct (for_each_opt (visit plugins f) (p_dependencies p) ({[n]} ∪ V, R))
      as [[V2 R2]|] eqn:Hl; [|discriminate].
    injection Hv as <- <-.
    destruct (for_each_opt_ind (closed_inv plugins (n :: K)) (grows plugins)
                (λ d s, d ∈ fst s) (visit plugins f) (p_dependencies p)
                ({[n]} ∪ V, R) (V2, R2) (grows_refl plugins) (grows_trans plugins))
      as (Hinv2 & (Hsub & HRsub & _) & Hdeps); [| | |exact Hl|].
    + intros x s1 s2 Hx (Hs & _ & _). set_solver.
    + intros d s1 s2 Hd Hs1 Hb. destruct (IH _ _ _ _ Hs1 Hb) as [Hs2 Hd2].
      destruct (visit_mono plugins _ _ _ _ Hb) as [Hg _]. auto.
    + intros v q Hv Hq. simpl in Hv. apply elem_of_union in Hv as [Hv|Hv].
      * apply elem_of_singleton in Hv as ->. left. set_solver.
      * destruct (Hinv v q Hv Hq) as [|[Hr Hd]]; [set_solver|right; split; [done|set_solver]].
    + simpl in *. split; [|set_solver].
      intros v q Hv Hq. simpl.
      assert (Hpush : ∀ y, y ∈ R2 ∨ y = n →
                y ∈ (if bool_decide (n ∈ R2) then R2 else (R2 ++ [n])%list)).
      { intros y Hy. case_bool_decide; [naive_solver|].
        apply elem_of_app. destruct Hy as [Hy| ->]; [by left|right; set_solver]. }
      destruct (Hinv2 v q Hv Hq) as [Hk|[Hr Hd]].
      * apply elem_of_cons in Hk as [->|Hk]; [|auto].
        rewrite Hn in Hq. injection Hq as <-. right. split; [by apply Hpush; right|].
        intros d Hd. exact (Hdeps d Hd).
      * right. split; [apply Hpush; by left|done].
Qed.

End Reach.

Lemma for_each_opt_app {A B : Type} (body : A → B → option B) l1 l2 st :
  for_each_opt body (l1 ++ l2) st =
  match for_each_opt body l1 st with Some s => for_each_opt body l2 s | None => None end.
Proof.
  revert st. induction l1 as [|x l1 IH]; intros st; simpl; [done|].
  destruct (body x st); [apply IH|done].
Qed.

Section Reach2.
Context (plugins : registry).

Lemma visit_prefix f n s s' :
  visit plugins f n s = Some s' → ∃ R2, snd s' = (snd s ++ R2)%list.
Proof.
  revert n s s'.
  induction f as [|f IH]; intros n [V R] [V' R'] Hv; simpl in Hv;
    (destruct (decide (n ∈ V)) as [Hin|Hin];
      [injection Hv as <- <-; exists []; by rewrite app_nil_r|]).
  - destruct (plugins !! n); [discriminate|]. injection Hv as <- <-.
    exists []; by rewrite app_nil_r.
  - destruct (plugins !! n) as [p|] eqn:Hn.
    2:{ injection Hv as <- <-. exists []; by rewrite app_nil_r. }
    destruct (for_each_opt (visit plugins f) (p_dependencies p) ({[n]} ∪ V, R))
      as [[V2 R2]|] eqn:Hl; [|discriminate].
    injection Hv as <- <-.
    destruct (for_each_opt_ind (λ _, True) (λ s s', ∃ R3, snd s' = (snd s ++ R3)%list)
                (λ _ _, True) (visit plugins f) (p_dependencies p)
                ({[n]} ∪ V, R) (V2, R2)) as (_ & [R3 HR3] & _);
      [intros s; exists []; by rewrite app_nil_r
      |intros s1 s2 s3 [Ra Ha] [Rb Hb]; exists (Ra ++ Rb)%list; by rewrite Hb, Ha, app_assoc
      |auto|intros x s1 s2 _ _ Hb; split_and!; eauto|done|exact Hl|].
    simpl in HR3. subst R2. simpl. case_bool_decide.
    + by exists R3.
    + exists (R3 ++ [n])%list. by rewrite app_assoc.
Qed.

Lemma visit_visited f n V R :
  n ∈ V → visit plugins f n (V, R) = Some (V, R).
Proof. intros Hn. destruct f; simpl; by rewrite decide_True. Qed.

Lemma for_each_visited f l V R :
  (∀ n, n ∈ l → n ∈ V) → for_each_opt (visit plugins f) l (V, R) = Some (V, R).
Proof.
  induction l as [|n l IH]; intros Hl; simpl; [done|].
  rewrite visit_visited by set_solver. apply IH. set_solver.
Qed.

Lemma resolve_circular_reach f n V c :
  resolveDependencies plugins f n V = Throw (ECircular c) →
  rtc (dep_edge plugins) n c ∧ (c ∈ V ∨ tc (dep_edge plugins) c c).
Proof.
  revert n V. induction f as [|f IH]; intros n V; simpl;
    (destruct (decide (n ∈ V)) as [Hin|Hin];
      [intros Hr; injection Hr as <-; split; [apply rtc_refl|by left]|]);
    unfold getPlugin; destruct (plugins !! n) as [p|] eqn:Hn; try discriminate.
  intros Hr. apply for_each_unit_throw in Hr as (d & Hd & Hb).
  unfold hasPlugin in Hb. case_bool_decide as Hh; simpl in Hb; [|discriminate].
  assert (Hnd : dep_edge plugins n d) by (by exists p).
  destruct (IH _ _ Hb) as [Hdc Hc]. split; [by eapply rtc_l|].
  destruct Hc as [Hc|Hc]; [|by right].
  apply elem_of_union in Hc as [Hc|Hc]; [|by left].
  apply elem_of_singleton in Hc as ->. right. eapply tc_rtc_r; [by apply tc_once|done].
Qed.

Lemma resolve_ret_fresh f n V :
  resolveDependencies plugins f n V = Ret tt →
  (n ∉ V) ∧ ∀ y, tc (dep_edge plugins) n y → (y ∉ V) ∧ y ≠ n.
Proof.
  revert n V. induction f as [|f IH]; intros n V; simpl;
    (destruct (decide (n ∈ V)) as [Hin|Hin]; [discriminate|]);
    unfold getPlugin; destruct (plugins !! n) as [p|] eqn:Hn; try discriminate.
  intros Hr. split; [done|]. intros y Hy.
  assert (Hstep : ∀ d, dep_edge plugins n d →
            (d ∉ {[n]} ∪ V) ∧ ∀ z, tc (dep_edge plugins) d z → (z ∉ {[n]} ∪ V) ∧ z ≠ d).
  { intros d (q & Hq & Hd). rewrite Hn in Hq. injection Hq as <-.
    pose proof (for_each_unit_ret _ _ Hr d Hd) as Hb.
    unfold hasPlugin in Hb. case_bool_decide; simpl in Hb; [|discriminate].
    by apply IH. }
  inversion Hy as [? ? Hnd|? d ? Hnd Hdy]; subst.
  - destruct (Hstep y Hnd) as [Hy' _]. set_solver.
  - destruct (Hstep d Hnd) as [_ Hz]. destruct (Hz y Hdy). set_solver.
Qed.

End Reach2.

Lemma append_assoc_str (a b c : string) : ((a ++ b) ++ c)%string = (a ++ b ++ c)%string.
Proof.
  induction a as [|ch a IH]; [done|].
  change (String ch ((a ++ b) ++ c)%string = String ch (a ++ b ++ c)%string). by rewrite IH.
Qed.

Section ProcessRun2.
Context (template : string → context → render_result) (getFileContent : string → string + string)
  (path_join : string → string → string) (path_dirname decode_utf8 : string → string)
  (ensureDir_ok writeFile_ok : string → bool) (fs_error : string → string).

Lemma processFile_binary_run file ctx content st :
  getFileContent file = inr content → isTextFile file = false →
  ensureDir_ok (path_dirname (outputFilePath template path_join ctx file)) = true →
  writeFile_ok (outputFilePath template path_join ctx file) = true →
  processFile template getFileContent path_join path_dirname decode_utf8 ensureDir_ok
    writeFile_ok fs_error file ctx st =
  (inr tt, mkIO (log st ++ map (pair Warn) (snd (rewrite_path template ctx file))
                  ++ [(Debug, "Processed file: " ++ file ++ " -> " ++ fst (rewrite_path template ctx file))])
              (written st ++ [(outputFilePath template path_join ctx file, BufferData content)])).
Proof.
  intros Hc Ht He Hw. unfold outputFilePath in *.
  destruct (rewrite_path template ctx file) as [op pw] eqn:Erp.
  cbn in He, Hw |- *.
  unfold processFile, catch_log_rethrow, bind. rewrite Hc. cbn -[log_all rewrite_path].
  rewrite Erp. cbn -[log_all rewrite_path].
  rewrite log_all_run. cbn -[log_all rewrite_path].
  unfold ensureDir. rewrite He. cbn -[log_all rewrite_path].
  rewrite Ht. unfold writeFile. rewrite Hw. cbn -[log_all rewrite_path].
  by rewrite !app_assoc.
Qed.

Lemma processFile_ok_run file ctx st :
  file_ok template getFileContent path_join path_dirname ensureDir_ok writeFile_ok ctx file →
  ∃ st' data, processFile template getFileContent path_join path_dirname decode_utf8
                ensureDir_ok writeFile_ok fs_error file ctx st = (inr tt, st') ∧
    written st' = (written st ++ [(outputFilePath template path_join ctx file, data)])%list.
Proof.
  intros (Hc & He & Hw). destruct (getFileContent file) as [|content] eqn:Hc'; [by destruct Hc|].
  destruct (isTextFile file) eqn:Ht.
  - rewrite (processFile_text_run template getFileContent path_join path_dirname decode_utf8
               ensureDir_ok writeFile_ok fs_error file ctx content st Hc' Ht He Hw). eauto.
  - rewrite (processFile_binary_run file ctx content st Hc' Ht He Hw). eauto.
Qed.

Lemma process_files_ok_run ctx files st :
  (∀ f, f ∈ files → file_ok template getFileContent path_join path_dirname
                       ensureDir_ok writeFile_ok ctx f) →
  ∃ st', process_files template getFileContent path_join path_dirname decode_utf8
           ensureDir_ok writeFile_ok fs_error ctx files st = (inr tt, st') ∧
    map fst (written st') = (map fst (written st) ++
                             map (outputFilePath template path_join ctx) files)%list.
Proof.
  revert st. induction files as [|f files IH]; intros st Hok; simpl.
  - exists st. split; [done|]. by rewrite app_nil_r.
  - destruct (processFile_ok_run f ctx st) as (st1 & data & Hrun & Hw); [apply Hok; set_solver|].
    unfold bind. rewrite Hrun.
    destruct (IH st1) as (st2 & Hrun2 & Hw2); [intros; apply Hok; set_solver|].
    exists st2. split; [done|]. rewrite Hw2, Hw, map_app. simpl. by rewrite <- app_assoc.
Qed.

Lemma process_files_app ctx pre post st :
  process_files template getFileContent path_join path_dirname decode_utf8
    ensureDir_ok writeFile_ok fs_error ctx (pre ++ post) st =
  bind (process_files template getFileContent path_join path_dirname decode_utf8
          ensureDir_ok writeFile_ok fs_error ctx pre)
       (λ _, process_files template getFileContent path_join path_dirname decode_utf8
               ensureDir_ok writeFile_ok fs_error ctx post) st.
Proof.
  revert st. induction pre as [|f pre IH]; intros st; simpl; unfold bind; [done|].
  destruct (processFile _ _ _ _ _ _ _ _ f ctx st) as [[e|[]] st1]; [done|].
  apply IH.
Qed.

End ProcessRun2.


Lemma processFile_read_failure_run template getFileContent path_join path_dirname
    decode_utf8 ensureDir_ok writeFile_ok fs_error file ctx msg st :
  getFileContent file = inl msg →
  processFile template getFileContent path_join path_dirname decode_utf8
    ensureDir_ok writeFile_ok fs_error file ctx st =
  (inl msg, mkIO (log st ++ [(Warn, "Failed to process file " ++ file ++ ": " ++ msg)])
                 (written st)).
Proof.
  intros Hc. unfold processFile, catch_log_rethrow, bind. rewrite Hc. simpl.
  by rewrite !append_assoc_str.
Qed.

Lemma dot_not_alnum : is_lower_alnum "." = false.
Proof. reflexivity. Qed.

Lemma sanitize_chars_ok s : chars_ok (sanitize s) = true.
Proof.
  induction s as [|c s IH]; simpl; [done|].
  destruct (is_lower_alnum c) eqn:E; simpl; rewrite ?E, IH; done.
Qed.

Lemma sanitize_has_alnum s : has_alnum (sanitize s) = has_alnum s.
Proof.
  induction s as [|c s IH]; simpl; [done|].
  destruct (is_lower_alnum c) eqn:E; simpl; rewrite ?E, ?IH; done.
Qed.

Lemma collapse_has_alnum s : has_alnum (collapse_dots s) = has_alnum s.
Proof.
  induction s as [|c s IH]; simpl; [done|].
  destruct (Ascii.eqb_spec c ".") as [->|Hc]; simpl.
  - destruct (starts_with_dot s); simpl; by rewrite IH.
  - by rewrite IH.
Qed.

Lemma collapse_head s : starts_with_dot (collapse_dots s) = starts_with_dot s.
Proof.
  induction s as [|c s IH]; simpl; [done|].
  destruct (Ascii.eqb_spec c ".") as [->|Hc]; simpl.
  - destruct (starts_with_dot s) eqn:E; simpl; [by rewrite IH|done].
  - by destruct (Ascii.eqb_spec c ".").
Qed.

Lemma collapse_loose s p :
  chars_ok s = true → (p = true → starts_with_dot s = false) →
  loose p (collapse_dots s) = true.
Proof.
  revert p. induction s as [|c s IH]; intros p Hok Hp; simpl; [done|].
  simpl in Hok. apply andb_true_iff in Hok as [Hc Hok].
  destruct (Ascii.eqb_spec c ".") as [->|Hne]; simpl.
  - assert (p = false) as -> by (destruct p; [by specialize (Hp eq_refl)|done]).
    destruct (starts_with_dot s) eqn:E; simpl.
    + apply IH; [done|discriminate].
    + apply IH; [done|auto].
  - destruct (Ascii.eqb_spec c ".") as [|_]; [done|].
    rewrite orb_false_r in Hc. rewrite Hc. simpl. apply IH; [done|discriminate].
Qed.

Lemma skip_dots_loose s p : loose p s = true → loose true (skip_dots s) = true.
Proof.
  revert p. induction s as [|c s IH]; intros p H; simpl; [done|].
  simpl in H. destruct (Ascii.eqb_spec c ".") as [->|Hne].
  - apply andb_true_iff in H as [_ H]. by apply (IH true).
  - simpl. destruct (Ascii.eqb_spec c "."); [done|]. done.
Qed.

Lemma skip_dots_has_alnum s : has_alnum (skip_dots s) = has_alnum s.
Proof.
  induction s as [|c s IH]; simpl; [done|].
  destruct (Ascii.eqb_spec c ".") as [->|Hne]; [done|done].
Qed.

Lemma loose_no_alnum_all_dots s p : loose p s = true → has_alnum s = false → all_dots s = true.
Proof.
  revert p. induction s as [|c s IH]; intros p H Ha; simpl in *; [done|].
  apply orb_false_iff in Ha as [Hc Ha].
  destruct (Ascii.eqb_spec c ".") as [->|Hne]; simpl.
  - apply andb_true_iff in H as [_ H]. eauto.
  - rewrite Hc in H. discriminate.
Qed.

Lemma all_dots_drop s : all_dots s = true → drop_trailing_dots s = EmptyString.
Proof.
  destruct s as [|c s]; simpl; [done|]. intros H. by rewrite H.
Qed.

Lemma all_dots_has_alnum s : all_dots s = true → has_alnum s = false.
Proof.
  induction s as [|c s IH]; simpl; [done|].
  intros H. apply andb_true_iff in H as [Hc H].
  apply Ascii.eqb_eq in Hc as ->. simpl. auto.
Qed.

Lemma drop_trailing_segs s p :
  loose p s = true → has_alnum s = true → segs_ok p (drop_trailing_dots s) = true.
Proof.
  revert p. induction s as [|c s IH]; intros p H Ha; simpl in *; [done|].
  destruct (Ascii.eqb_spec c ".") as [->|Hne]; simpl.
  - apply andb_true_iff in H as [Hp H].
    rewrite dot_not_alnum in Ha. simpl in Ha.
    destruct (all_dots s) eqn:E; [by rewrite all_dots_has_alnum in Ha|].
    simpl. rewrite Hp. simpl. by apply IH.
  - destruct (Ascii.eqb_spec c "."); [done|].
    apply andb_true_iff in H as [Hc H]. rewrite Hc. simpl.
    destruct (has_alnum s) eqn:Hs; [by apply IH|].
    rewrite all_dots_drop; [done|]. by eapply loose_no_alnum_all_dots.
Qed.


Lemma toLowerCase_cons c r : toLowerCase (String c r) = String (lower_ascii c) (toLowerCase r).
Proof. reflexivity. Qed.

Lemma lower_ascii_ok c : (is_lower_alnum c || Ascii.eqb c ".") = true → lower_ascii c = c.
Proof. intros H; destruct c as [[][][][][][][][]]; vm_compute in H; vm_compute; congruence. Qed.

Lemma chars_ok_toLowerCase s : chars_ok s = true → toLowerCase s = s.
Proof.
  induction s as [|c s IH]; [done|]. simpl. intros H.
  apply andb_true_iff in H as [Hc H]. rewrite toLowerCase_cons, lower_ascii_ok, IH; done.
Qed.

Lemma chars_ok_sanitize s : chars_ok s = true → sanitize s = s.
Proof.
  induction s as [|c s IH]; [done|]. simpl. intros H.
  apply andb_true_iff in H as [Hc H]. rewrite IH by done.
  destruct (is_lower_alnum c) eqn:E; [done|].
  simpl in Hc. by apply Ascii.eqb_eq in Hc as ->.
Qed.

Lemma segs_ok_chars_ok s p : segs_ok p s = true → chars_ok s = true.
Proof.
  revert p. induction s as [|c s IH]; intros p H; simpl in *; [done|].
  destruct (Ascii.eqb_spec c ".") as [->|Hne].
  - apply andb_true_iff in H as [_ H]. rewrite orb_true_r. simpl. eauto.
  - apply andb_true_iff in H as [Hc H]. rewrite Hc. simpl. eauto.
Qed.

Lemma segs_ok_loose s p : segs_ok p s = true → loose p s = true.
Proof.
  revert p. induction s as [|c s IH]; intros p H; simpl in *; [done|].
  destruct (Ascii.eqb_spec c ".").
  - apply andb_true_iff in H as [Hp H]. rewrite Hp. eauto.
  - apply andb_true_iff in H as [Hc H]. rewrite Hc. eauto.
Qed.

Lemma loose_collapse_id s p : loose p s = true → collapse_dots s = s.
Proof.
  revert p. induction s as [|c s IH]; intros p H; simpl in *; [done|].
  destruct (Ascii.eqb_spec c ".") as [->|Hne]; simpl.
  - apply andb_true_iff in H as [_ H].
    assert (starts_with_dot s = false) as ->.
    { destruct s as [|d s]; [done|]. simpl in H |- *.
      by destruct (Ascii.eqb_spec d "."). }
    f_equal. eauto.
  - apply andb_true_iff in H as [_ H]. f_equal. eauto.
Qed.

Lemma segs_ok_skip_dots s : segs_ok true s = true → skip_dots s = s.
Proof.
  destruct s as [|c s]; simpl; [done|].
  destruct (Ascii.eqb_spec c "."); [done|done].
Qed.

Lemma segs_ok_drop_trailing s p : segs_ok p s = true → drop_trailing_dots s = s.
Proof.
  revert p. induction s as [|c s IH]; intros p H; simpl in *; [done|].
  destruct (Ascii.eqb_spec c ".") as [->|Hne]; simpl.
  - apply andb_true_iff in H as [_ H].
    destruct (all_dots s) eqn:E.
    + destruct s as [|d s]; [done|]. simpl in E, H.
      apply andb_true_iff in E as [Hd _]. apply Ascii.eqb_eq in Hd as ->. done.
    + f_equal. eauto.
  - f_equal. apply andb_true_iff in H as [_ H]. eauto.
Qed.




Lemma pipeline_segs name :
  has_alnum (toLowerCase name) = true →
  segs_ok true (trim_dots (collapse_dots (sanitize (toLowerCase name)))) = true.
Proof.
  intros Ha. unfold trim_dots. apply drop_trailing_segs.
  - eapply (skip_dots_loose _ false). apply collapse_loose; [apply sanitize_chars_ok|discriminate].
  - by rewrite skip_dots_has_alnum, collapse_has_alnum, sanitize_has_alnum.
Qed.

Lemma pipeline_id p :
  is_package p = true → trim_dots (collapse_dots (sanitize (toLowerCase p))) = p.
Proof.
  unfold is_package. intros H.
  pose proof (segs_ok_chars_ok _ _ H) as Hc.
  rewrite chars_ok_toLowerCase, chars_ok_sanitize by done.
  rewrite (loose_collapse_id _ true) by (by apply segs_ok_loose).
  unfold trim_dots. rewrite segs_ok_skip_dots by done.
  by eapply segs_ok_drop_trailing.
Qed.

Lemma append_cons_str c a b : (String c a ++ b)%string = String c (a ++ b)%string.
Proof. reflexivity. Qed.

Lemma includes_char s c : includes s (String c EmptyString) = negb (no_char c s).
Proof.
  induction s as [|d s IH]; [done|]. cbn [includes strip_prefix no_char].
  destruct (Ascii.eqb_spec c d) as [->|Hne].
  - by rewrite Ascii.eqb_refl.
  - destruct (Ascii.eqb_spec d c); [congruence|]. by rewrite IH.
Qed.











Lemma getDefaultPackage_package name :
  has_alnum (toLowerCase name) = true →
  is_package (getDefaultPackage name) = true ∧ includes (getDefaultPackage name) "." = true.
Proof.
  intros Ha. pose proof (pipeline_segs name Ha) as Hs. unfold getDefaultPackage, is_package.
  destruct (includes _ ".") eqn:E; [done|].
  split; [exact Hs|reflexivity].
Qed.

Lemma getDefaultPackage_fixed p :
  is_package p = true → includes p "." = true → getDefaultPackage p = p.
Proof.
  intros Hp Hi. unfold getDefaultPackage. rewrite pipeline_id by done. by rewrite Hi.
Qed.

Lemma add_missing_spec local acc :
  NoDup acc →
  NoDup (add_missing acc local) ∧ (∃ extra, add_missing acc local = (acc ++ extra)%list) ∧
  ∀ t, t ∈ add_missing acc local ↔ t ∈ acc ∨ t ∈ local.
Proof.
  unfold add_missing. revert acc. induction local as [|t local IH]; intros acc Hnd; simpl.
  - split_and!; [done| |set_solver]. exists []. by rewrite app_nil_r.
  - case_bool_decide as Ht.
    + destruct (IH acc Hnd) as (H1 & H2 & H3). split_and!; [done|done|]. set_solver.
    + assert (NoDup (acc ++ [t])) as Hnd'.
      { apply NoDup_app. split_and!; [done| |by apply NoDup_singleton]. set_solver. }
      destruct (IH _ Hnd') as (H1 & (extra & He) & H3). split_and!; [done| |set_solver].
      exists (t :: extra). by rewrite He, <-app_assoc.
Qed.

Lemma lower_ascii_slash c : Ascii.eqb (lower_ascii c) char_slash = Ascii.eqb c char_slash.
Proof. destruct c as [[][][][][][][][]]; reflexivity. Qed.

Lemma lower_ascii_dot c : Ascii.eqb (lower_ascii c) char_dot = Ascii.eqb c char_dot.
Proof. destruct c as [[][][][][][][][]]; reflexivity. Qed.

Lemma lower_ascii_idem c : lower_ascii (lower_ascii c) = lower_ascii c.
Proof. destruct c as [[][][][][][][][]]; reflexivity. Qed.

Lemma list_ascii_of_toLowerCase s :
  list_ascii_of_string (toLowerCase s) = map lower_ascii (list_ascii_of_string s).
Proof. unfold toLowerCase. apply list_ascii_of_string_of_list_ascii. Qed.

Lemma toLowerCase_idem s : toLowerCase (toLowerCase s) = toLowerCase s.
Proof.
  induction s as [|c s IH]; [done|].
  change (String (lower_ascii (lower_ascii c)) (toLowerCase (toLowerCase s))
          = String (lower_ascii c) (toLowerCase s)).
  by rewrite lower_ascii_idem, IH.
Qed.

Lemma substring_toLowerCase n m s :
  substring n m (toLowerCase s) = toLowerCase (substring n m s).
Proof.
  revert n m. induction s as [|c s IH]; intros [|n] [|m]; try done.
  - change (String (lower_ascii c) (substring 0 m (toLowerCase s))
            = String (lower_ascii c) (toLowerCase (substring 0 m s))). by rewrite IH.
  - change (substring n 0 (toLowerCase s) = toLowerCase (substring n 0 s)). apply IH.
  - change (substring n (S m) (toLowerCase s) = toLowerCase (substring n (S m) s)). apply IH.
Qed.

Lemma extname_loop_lower cs i st :
  extname_loop (map lower_ascii cs) i st = extname_loop cs i st.
Proof.
  revert i st. induction cs as [|c cs IH]; intros i st; [done|].
  cbn [map extname_loop]. rewrite lower_ascii_slash, lower_ascii_dot.
  destruct (Ascii.eqb c char_slash); [destruct (negb _); [done|apply IH]|apply IH].
Qed.

Lemma basename_loop_lower cs i start e ms :
  basename_loop (map lower_ascii cs) i start e ms = basename_loop cs i start e ms.
Proof.
  revert i start e ms. induction cs as [|c cs IH]; intros i start e ms; [done|].
  cbn [map basename_loop]. rewrite lower_ascii_slash.
  destruct (Ascii.eqb c char_slash); [destruct (negb _); [done|apply IH]|].
  destruct e; apply IH.
Qed.

Lemma extname_toLowerCase p : extname (toLowerCase p) = toLowerCase (extname p).
Proof.
  unfold extname. rewrite list_ascii_of_toLowerCase, <-map_rev, length_map, extname_loop_lower.
  destruct (extname_loop _ _ _) as [sd sp e ms pd]; cbn [startDot end_ preDotState startPart].
  destruct sd, e; try done.
  destruct (Z.eqb pd 0); [done|].
  destruct (_ && _ && _); [done|]. apply substring_toLowerCase.
Qed.

Lemma basename_toLowerCase p : basename (toLowerCase p) = toLowerCase (basename p).
Proof.
  unfold basename. rewrite list_ascii_of_toLowerCase, <-map_rev, length_map, basename_loop_lower.
  destruct (basename_loop _ _ _ _ _) as [start [e|]]; [apply substring_toLowerCase|done].
Qed.

Lemma strip_prefix_app_self pat b : strip_prefix pat (pat ++ b) = Some b.
Proof.
  induction pat as [|c pat IH]; [done|].
  change ((if Ascii.eqb c c then strip_prefix pat (pat ++ b) else None) = Some b).
  destruct (Ascii.eqb_spec c c); [done|congruence].
Qed.

Lemma strip_prefix_long pat x y :
  (String.length pat ≤ String.length x)%nat →
  strip_prefix pat (x ++ y) = option_map (λ r, r ++ y) (strip_prefix pat x).
Proof.
  revert x. induction pat as [|c pat IH]; intros [|d x] Hl; simpl in Hl; try lia; try done.
  change ((if Ascii.eqb c d then strip_prefix pat (x ++ y) else None) =
    option_map (λ r, r ++ y) (if Ascii.eqb c d then strip_prefix pat x else None)).
  destruct (Ascii.eqb c d); [apply IH; lia|done].
Qed.

Lemma length_append_str a b : (String.length (a ++ b) = String.length a + String.length b)%nat.
Proof. induction a as [|c a IH]; [done|]. change (S (String.length (a ++ b)) = S (String.length a + String.length b))%nat. lia. Qed.

Lemma includes_step s pat :
  includes s pat = match strip_prefix pat s with
                   | Some _ => true
                   | None => match s with EmptyString => false | String _ s' => includes s' pat end
                   end.
Proof. by destruct s. Qed.

Lemma includes_app_self a pat b : includes (a ++ pat ++ b) pat = true.
Proof.
  induction a as [|c a IH].
  - change (includes (pat ++ b) pat = true).
    by rewrite includes_step, strip_prefix_app_self.
  - rewrite append_cons_str, includes_step. by destruct (strip_prefix _ _).
Qed.

Lemma replace_first_go_step pat rep before r :
  replace_first_go pat rep before r =
    match strip_prefix pat r with
    | Some after => before ++ get_substitution pat before after rep ++ after
    | None =>
        match r with
        | EmptyString => before
        | String c r' => replace_first_go pat rep (before ++ String c EmptyString) r'
        end
    end.
Proof. by destruct r. Qed.

Lemma replace_first_go_first pat z rep before a b :
  includes (a ++ pat) (pat ++ String z EmptyString) = false →
  replace_first_go (pat ++ String z EmptyString) rep before (a ++ (pat ++ String z EmptyString) ++ b) =
    before ++ a ++ get_substitution (pat ++ String z EmptyString) (before ++ a) b rep ++ b.
Proof.
  revert before. induction a as [|c a IH]; intros before H.
  - change (EmptyString ++ (pat ++ String z EmptyString) ++ b) with ((pat ++ String z EmptyString) ++ b).
    rewrite replace_first_go_step, strip_prefix_app_self, append_empty_r. done.
  - rewrite append_cons_str, includes_step in H.
    destruct (strip_prefix _ (String c (a ++ pat))) eqn:Es; [done|].
    assert (Hlen : (String.length (pat ++ String z EmptyString) ≤ String.length (String c (a ++ pat)))%nat).
    { rewrite length_append_str. cbn [String.length]. rewrite length_append_str. lia. }
    assert (E : String c a ++ (pat ++ String z EmptyString) ++ b =
                (String c (a ++ pat) ++ String z b)).
    { rewrite !append_cons_str. f_equal. rewrite !append_assoc_str. done. }
    rewrite E, replace_first_go_step, strip_prefix_long, Es by exact Hlen. cbn [option_map].
    rewrite <-E, append_cons_str.
    rewrite IH by done. rewrite !append_assoc_str. done.
Qed.

Lemma get_substitution_plain m bf af rep :
  no_char "$" rep = true → get_substitution m bf af rep = rep.
Proof.
  induction rep as [|c r IH]; [done|]. intros H. cbn [no_char] in H.
  apply andb_true_iff in H as [Hc H].
  destruct c as [[][][][][][][][]]; simpl in Hc |- *; try discriminate; by rewrite IH.
Qed.

Lemma no_char_app c a b : no_char c (a ++ b) = no_char c a && no_char c b.
Proof.
  induction a as [|d a IH]; [done|]. rewrite append_cons_str. cbn [no_char].
  by rewrite IH, andb_assoc.
Qed.

Lemma replace_all_go_no_dollar fuel pat before r :
  no_char "$" r = true → no_char "$" (replace_all_go fuel pat "/" before r) = true.
Proof.
  revert before r. induction fuel as [|fuel IH]; intros before r H; [done|].
  cbn [replace_all_go]. destruct r as [|c r']; [done|].
  destruct (strip_prefix pat (String c r')) as [after|] eqn:Es.
  - apply strip_prefix_Some in Es.
    change (get_substitution pat before after "/") with "/".
    change (no_char "$" (String "/" (replace_all_go fuel pat "/" (before ++ pat) after)) = true).
    cbn [no_char]. apply IH. rewrite Es, no_char_app in H. by apply andb_true_iff in H as [_ H].
  - cbn [no_char] in H |- *. apply andb_true_iff in H as [Hc H]. rewrite Hc. by apply IH.
Qed.

(* ------------------------------------------------------------------ *)
(** ** Claims about the plugin registry *)

(** C1 (code_bug): with A depending on B and B depending on A, the graph has
    a cycle through A, yet [getPluginsInDependencyOrder] on [[A]] returns
    the list [[B; A]] instead of failing with a cycle error: its single
    global [visited] set silently cuts the cycle. *)
Theorem getPluginsInDependencyOrder_cycle_returns :
  tc (dep_edge reg_AB) "A" "A" ∧
  getPluginsInDependencyOrder reg_AB ["A"] = Some ["B"; "A"].
Proof.
  split.
  - apply (tc_l _ _ "B").
    + exists (mkPlugin "A" "1.0.0" ["B"]). split; [reflexivity|set_solver].
    + apply tc_once. exists (mkPlugin "B" "1.0.0" ["A"]). split; [reflexivity|set_solver].
  - vm_compute. reflexivity.
Qed.

(** C3: for an acyclic dependency graph and any request list (duplicates
    and overlapping chains allowed), [getPluginsInDependencyOrder] returns a
    list without duplicates that contains every requested registered name
    and places every registered dependency of each member strictly before
    it. *)
Theorem getPluginsInDependencyOrder_acyclic (plugins : registry) (names : list string) :
  acyclic plugins →
  ∃ out, getPluginsInDependencyOrder plugins names = Some out ∧ NoDup out ∧
    (∀ n, n ∈ names → is_Some (plugins !! n) → n ∈ out) ∧
    (∀ x, x ∈ out → is_Some (plugins !! x)) ∧
    deps_before plugins out.
Proof.
  intros Hacyc.
  destruct (order_some plugins names) as (out & Hout & _).
  exists out. split; [done|].
  unfold getPluginsInDependencyOrder in Hout.
  destruct (for_each_opt (visit plugins (S (size (dom plugins)))) names (∅, []))
    as [[V R]|] eqn:Hr; [|discriminate].
  injection Hout as <-.
  destruct (for_each_opt_ind (order_inv plugins []) (grows plugins)
              (λ x s, is_Some (plugins !! x) → x ∈ snd s)
              (visit plugins (S (size (dom plugins)))) names (∅, []) (V, R)
              (grows_refl plugins) (grows_trans plugins)) as (Hinv & _ & Hall);
    [| | |exact Hr|].
  - intros x s s' Hx (_ & HR & _) Hreg. auto.
  - intros x s s' _ Hs Hb.
    destruct (visit_order plugins Hacyc _ x [] s s' Hs ltac:(set_solver) Hb) as [Hs' Hx].
    destruct (visit_mono plugins _ _ _ _ Hb) as [Hg _]. done.
  - split_and!; simpl; [split; [apply NoDup_nil_2|set_solver]| |set_solver|set_solver].
    intros i x p d Hi. by rewrite lookup_nil in Hi.
  - destruct Hinv as ((Hnd & Hreg) & Hb & _). simpl in *. split_and!; auto.
Qed.

Lemma getPluginsInDependencyOrder_acyclic_witness :
  acyclic reg_A_B ∧
  ∃ out, getPluginsInDependencyOrder reg_A_B ["A"; "A"; "C"] = Some out ∧ NoDup out ∧
    (∀ n, n ∈ ["A"; "A"; "C"] → is_Some (reg_A_B !! n) → n ∈ out) ∧
    (∀ x, x ∈ out → is_Some (reg_A_B !! x)) ∧
    deps_before reg_A_B out.
Proof.
  split; [exact reg_A_B_acyclic|].
  apply (getPluginsInDependencyOrder_acyclic reg_A_B ["A"; "A"; "C"]).
  exact reg_A_B_acyclic.
Defined.

(** C4 (amended): [resolveDependencies] on a registered plugin from which a
    missing dependency is reachable always throws. The error names some
    missing dependency reachable from the plugin, or reports a cycle met
    first. *)
Theorem resolveDependencies_missing_throws (plugins : registry) (p m : string) :
  is_Some (plugins !! p) → missing_dep_reachable plugins p m →
  ∃ e, resolveDependencies_top plugins p = Throw e ∧
    ((∃ c, e = ECircular c) ∨
     (∃ m' x', e = EUnresolved m' x' ∧ rtc (dep_edge plugins) p x' ∧
               dep_edge plugins x' m' ∧ plugins !! m' = None)).
Proof.
  intros Hp (x & Hpx & Hxm & Hm).
  destruct (resolveDependencies_top plugins p) as [[]|e|] eqn:Hr.
  - exfalso. destruct (resolve_ret_reach plugins _ _ _ x Hr Hpx) as (f' & V' & Hx).
    destruct (resolve_ret plugins _ _ _ Hx) as (q & Hq & Hdeps).
    destruct Hxm as (q' & Hq' & Hmq). rewrite Hq in Hq'. injection Hq' as <-.
    destruct (Hdeps m Hmq) as [Hreg _]. rewrite Hm in Hreg. by destruct Hreg.
  - exists e. split; [done|].
    destruct (resolve_throw_form plugins _ _ _ _ Hr) as [Hc|[[_ Hnone]|Hu]]; [by left| |by right].
    rewrite Hnone in Hp. by destruct Hp.
  - exfalso. revert Hr. apply resolve_nofuel.
    rewrite difference_empty_L. lia.
Qed.

Lemma resolveDependencies_missing_throws_witness :
  (is_Some (reg_two_missing !! "A") ∧ missing_dep_reachable reg_two_missing "A" "M") ∧
  ∃ e, resolveDependencies_top reg_two_missing "A" = Throw e ∧
    ((∃ c, e = ECircular c) ∨
     (∃ m' x', e = EUnresolved m' x' ∧ rtc (dep_edge reg_two_missing) "A" x' ∧
               dep_edge reg_two_missing x' m' ∧ reg_two_missing !! m' = None)).
Proof.
  assert (H : is_Some (reg_two_missing !! "A") ∧ missing_dep_reachable reg_two_missing "A" "M").
  { split; [eexists; reflexivity|].
    exists "A". split_and!; [apply rtc_refl| |reflexivity].
    exists (mkPlugin "A" "1.0.0" ["N"; "M"]). split; [reflexivity|set_solver]. }
  split; [exact H|].
  apply (resolveDependencies_missing_throws reg_two_missing "A" "M"); apply H.
Defined.

(** C4 counterexample: the error need not name a given missing dependency.
    With A depending on itself and on the missing M, the cycle error comes
    first; with A depending on the missing N and M, only N is named. *)
Lemma resolveDependencies_missing_not_named :
  (dep_edge reg_self_missing "A" "M" ∧ reg_self_missing !! "M" = None ∧
   resolveDependencies_top reg_self_missing "A" = Throw (ECircular "A")) ∧
  (dep_edge reg_two_missing "A" "M" ∧ reg_two_missing !! "M" = None ∧
   resolveDependencies_top reg_two_missing "A" = Throw (EUnresolved "N" "A")).
Proof.
  split; split_and!.
  - exists (mkPlugin "A" "1.0.0" ["A"; "M"]). split; [reflexivity|set_solver].
  - reflexivity.
  - vm_compute. reflexivity.
  - exists (mkPlugin "A" "1.0.0" ["N"; "M"]). split; [reflexivity|set_solver].
  - reflexivity.
  - vm_compute. reflexivity.
Qed.

(** C5: a requested name that is not registered is absent from the order,
    and the ordering does not fail. *)
Theorem getPluginsInDependencyOrder_skips_unknown (plugins : registry)
    (names : list string) (n : string) :
  n ∈ names → plugins !! n = None →
  ∃ out, getPluginsInDependencyOrder plugins names = Some out ∧ n ∉ out.
Proof.
  intros _ Hn. destruct (order_some plugins names) as (out & Hout & _ & Hreg).
  exists out. split; [done|]. intros Hin. destruct (Hreg n Hin) as [? Hs].
  by rewrite Hn in Hs.
Qed.

Lemma getPluginsInDependencyOrder_skips_unknown_witness :
  ("C" ∈ ["A"; "A"; "C"] ∧ reg_A_B !! "C" = None) ∧
  ∃ out, getPluginsInDependencyOrder reg_A_B ["A"; "A"; "C"] = Some out ∧ "C" ∉ out.
Proof.
  assert (H : "C" ∈ ["A"; "A"; "C"] ∧ reg_A_B !! "C" = None) by (split; [set_solver|reflexivity]).
  split; [exact H|].
  apply (getPluginsInDependencyOrder_skips_unknown reg_A_B ["A"; "A"; "C"] "C"); apply H.
Defined.

(** C9: registering a plugin whose name is already a key fails with the
    duplicate error and leaves the map unchanged; hence, in a registry
    filled by the discovery loops from empty, distinct entries have
    distinct names. *)
Theorem register_duplicate_rejected (plugins : registry) (p : plugin) :
  is_Some (plugins !! p_name p) →
  register plugins p = (Throw (EDuplicate (p_name p)), plugins) ∧
  (∀ ps k1 k2 q1 q2, register_all ∅ ps !! k1 = Some q1 → register_all ∅ ps !! k2 = Some q2 →
     p_name q1 = p_name q2 → k1 = k2 ∧ q1 = q2).
Proof.
  intros Hp. split.
  - unfold register. by rewrite decide_True.
  - intros ps k1 k2 q1 q2 H1 H2 Hname.
    assert (Hk : keys_are_names (register_all ∅ ps)).
    { apply keys_are_names_register_all. intros k q Hq. by rewrite lookup_empty in Hq. }
    pose proof (Hk _ _ H1) as E1. pose proof (Hk _ _ H2) as E2.
    assert (k1 = k2) as <- by congruence.
    split; [done|]. congruence.
Qed.

Lemma register_duplicate_rejected_witness :
  is_Some (reg_A_B !! p_name (mkPlugin "A" "2.0.0" [])) ∧
  register reg_A_B (mkPlugin "A" "2.0.0" []) =
    (Throw (EDuplicate "A"), reg_A_B).
Proof.
  assert (H : is_Some (reg_A_B !! p_name (mkPlugin "A" "2.0.0" []))) by (eexists; reflexivity).
  split; [exact H|].
  apply (register_duplicate_rejected reg_A_B (mkPlugin "A" "2.0.0" []) H).
Defined.

(** C10: for every registry, cyclic or with missing dependencies, and every
    request list, [getPluginsInDependencyOrder] returns normally, and the
    list holds distinct registered names. *)
Theorem getPluginsInDependencyOrder_total (plugins : registry) (names : list string) :
  ∃ out, getPluginsInDependencyOrder plugins names = Some out ∧ NoDup out ∧
    ∀ x, x ∈ out → is_Some (plugins !! x).
Proof.
  destruct (order_some plugins names) as (out & Hout & Hnd & Hreg). eauto.
Qed.

(* ------------------------------------------------------------------ *)
(** ** Claims about the template processor *)

(** C2 (corrected), counterexample: in the context of the spec's examples
    (package name [com.acme.orders]), the text file
    [__packageDir__/Main.java] with content [package __packageDir__;] is
    written to [/out/com/acme/orders/Main.java] with its content unchanged:
    the token is replaced in the path but not in the content. *)
Lemma processFile_packageDir_content_kept :
  isTextFile "__packageDir__/Main.java" = true ∧
  truthy (packageName ctx_orders) = true ∧
  written (snd (run_one "__packageDir__/Main.java" "package __packageDir__;")) =
    [("/out/com/acme/orders/Main.java", TextData "package __packageDir__;")].
Proof. vm_compute. repeat split. Qed.

(** C2 (amended): for a text file that is read and written, the content
    written is the decoded content after expression interpolation, then
    [${packageName}] substitution (when the package name is non-empty),
    then [${projectName}] substitution (when the name is non-empty); no
    other rewriting happens, so a [__packageDir__] token left by the
    interpolation stays in the content. *)
Theorem processFile_content_rewriting template getFileContent path_join path_dirname
    decode_utf8 ensureDir_ok writeFile_ok fs_error file ctx content st :
  getFileContent file = inr content → isTextFile file = true →
  ensureDir_ok (path_dirname (outputFilePath template path_join ctx file)) = true →
  writeFile_ok (outputFilePath template path_join ctx file) = true →
  let interpolated := fst (interpolate_step template
        (λ msg, "Failed to process template variables in " ++ file ++ ": " ++ msg)
        (decode_utf8 content) ctx) in
  let with_package := if truthy (packageName ctx)
        then replace_all interpolated "${packageName}" (packageName ctx) else interpolated in
  let with_project := if truthy (name ctx)
        then replace_all with_package "${projectName}" (name ctx) else with_package in
  written (snd (processFile template getFileContent path_join path_dirname decode_utf8
                  ensureDir_ok writeFile_ok fs_error file ctx st)) =
    (written st ++ [(outputFilePath template path_join ctx file, TextData with_project)])%list ∧
  (includes interpolated "${packageName}" = false →
   includes interpolated "${projectName}" = false → with_project = interpolated).
Proof.
  intros Hc Ht He Hw interpolated with_package with_project.
  assert (Hsub : with_project = substitute_tokens ctx interpolated) by done.
  split.
  - rewrite (processFile_text_run _ _ _ _ _ _ _ _ file ctx content st Hc Ht He Hw). simpl.
    rewrite Hsub. unfold interpolated, rewrite_content.
    by destruct (interpolate_step _ _ _ _).
  - intros Hp Hn. rewrite Hsub. by apply substitute_tokens_absent.
Qed.

Lemma processFile_content_rewriting_witness :
  written (snd (run_one "__packageDir__/App.java" "package ${packageName}; // __packageDir__")) =
    [("/out/com/acme/orders/App.java", TextData "package com.acme.orders; // __packageDir__")].
Proof.
  destruct (processFile_content_rewriting lodash_fields
              (λ _, inr "package ${packageName}; // __packageDir__")
              fixture_join fixture_dirname fixture_decode fixture_ok fixture_ok fixture_error
              "__packageDir__/App.java" ctx_orders "package ${packageName}; // __packageDir__"
              (mkIO [] []) ltac:(reflexivity) ltac:(vm_compute; reflexivity)
              ltac:(reflexivity) ltac:(reflexivity)) as [Hw _].
  unfold run_one. rewrite Hw. vm_compute. reflexivity.
Defined.

(** C6: path rewriting uses expression interpolation and the
    [__packageDir__] token only: a path with neither [{{] nor
    [__packageDir__] is kept as it is, [${projectName}] and
    [${packageName}] tokens included, whatever the template engine; and for
    a context with name [orders-api] and package name [com.acme.orders],
    [__packageDir__/Main.java] becomes [com/acme/orders/Main.java]. *)
Theorem rewrite_path_forms :
  (∀ template ctx file,
     includes file "{{" = false → includes file "__packageDir__" = false →
     rewrite_path template ctx file = (file, [])) ∧
  (∀ template outputDir templateName plugins,
     rewrite_path template
       (mkContext "orders-api" outputDir "com.acme.orders" templateName plugins)
       "__packageDir__/Main.java" = ("com/acme/orders/Main.java", [])).
Proof.
  split.
  - intros template ctx file H1 H2. unfold rewrite_path, interpolate_step.
    rewrite H1. simpl. rewrite H2. by destruct (truthy (packageName ctx)).
  - intros. reflexivity.
Qed.

Lemma rewrite_path_forms_witness :
  rewrite_path lodash_fields ctx_orders "${projectName}/${packageName}.md" =
    ("${projectName}/${packageName}.md", []).
Proof.
  apply (proj1 rewrite_path_forms); vm_compute; reflexivity.
Defined.

(** C7 (corrected), counterexample: [README.md] is a text file whose content
    [<%- name %> }}{{] has no [{{..}}] span and none of the tokens, yet it is
    written as [orders-api }}{{]: the content holds both [{{] and [}}], so
    lodash's template runs, and its default [<%- %>] delimiters are still
    active. *)
Lemma processFile_evaluate_delimiters_rendered :
  isTextFile "README.md" = true ∧
  has_span "{{" "}}" "<%- name %> }}{{" = false ∧
  includes "<%- name %> }}{{" "${projectName}" = false ∧
  includes "<%- name %> }}{{" "${packageName}" = false ∧
  includes "<%- name %> }}{{" "__packageDir__" = false ∧
  written (snd (run_one "README.md" "<%- name %> }}{{")) =
    [("/out/README.md", TextData "orders-api }}{{")].
Proof. vm_compute. repeat split. Qed.

(** C7 (amended): a text file whose decoded content has no [{{..}}] span, no
    [<%..%>] span (lodash's default escape and evaluate delimiters) and no
    [${projectName}] or [${packageName}] token is written with its decoded
    content unchanged, whatever the evaluation of expressions. *)
Theorem processFile_text_roundtrip eval_expr run_statements getFileContent path_join
    path_dirname decode_utf8 ensureDir_ok writeFile_ok fs_error file ctx content st :
  let template := lodash_template eval_expr run_statements in
  getFileContent file = inr content → isTextFile file = true →
  has_span "{{" "}}" (decode_utf8 content) = false →
  has_span "<%" "%>" (decode_utf8 content) = false →
  includes (decode_utf8 content) "${projectName}" = false →
  includes (decode_utf8 content) "${packageName}" = false →
  ensureDir_ok (path_dirname (outputFilePath template path_join ctx file)) = true →
  writeFile_ok (outputFilePath template path_join ctx file) = true →
  written (snd (processFile template getFileContent path_join path_dirname decode_utf8
                  ensureDir_ok writeFile_ok fs_error file ctx st)) =
    (written st ++ [(outputFilePath template path_join ctx file, TextData (decode_utf8 content))])%list.
Proof.
  intros template Hc Ht H1 H2 Hn Hp He Hw.
  rewrite (processFile_text_run _ _ _ _ _ _ _ _ file ctx content st Hc Ht He Hw). simpl.
  rewrite rewrite_content_identity; [done| |done|done].
  by apply lodash_template_no_span.
Qed.

Lemma processFile_text_roundtrip_witness :
  written (snd (run_one "README.md" "# Orders service {{")) =
    [("/out/README.md", TextData "# Orders service {{")].
Proof.
  apply (processFile_text_roundtrip field_eval (λ _ _, RenderError "evaluate spans are not modelled")
           (λ _, inr "# Orders service {{") fixture_join fixture_dirname fixture_decode
           fixture_ok fixture_ok fixture_error "README.md" ctx_orders "# Orders service {{"
           (mkIO [] [])); vm_compute; reflexivity.
Defined.

(** C8 (corrected), counterexample: in [a.md] with content
    [{{ nope }} ${projectName}], the interpolation fails ([nope] is not a
    field of the context) and a warning is logged, but the file is not
    left as it was: [${projectName}] is still replaced. *)
Lemma processFile_failed_interpolation_tokens_applied :
  run_one "a.md" "{{ nope }} ${projectName}" =
    (inr tt,
     mkIO [(Warn, "Failed to process template variables in a.md: nope is not defined");
           (Debug, "Processed file: a.md -> a.md")]
          [("/out/a.md", TextData "{{ nope }} orders-api")]).
Proof. vm_compute. reflexivity. Qed.

(** C8 (amended): when the interpolation of a text file's content throws,
    [processFile] returns normally: the interpolation leaves the text as it
    was, a warning carrying the error's message is logged, the
    [${packageName}] and [${projectName}] substitutions still apply to the
    written content, and the loop over the template's files goes on with
    the next file. *)
Theorem processFile_interpolation_failure_continues template getFileContent path_join
    path_dirname decode_utf8 ensureDir_ok writeFile_ok fs_error file ctx content msg st :
  getFileContent file = inr content → isTextFile file = true →
  includes (decode_utf8 content) "{{" = true → includes (decode_utf8 content) "}}" = true →
  template (decode_utf8 content) ctx = RenderError msg →
  ensureDir_ok (path_dirname (outputFilePath template path_join ctx file)) = true →
  writeFile_ok (outputFilePath template path_join ctx file) = true →
  ∃ st',
    processFile template getFileContent path_join path_dirname decode_utf8
      ensureDir_ok writeFile_ok fs_error file ctx st = (inr tt, st') ∧
    written st' = (written st ++ [(outputFilePath template path_join ctx file,
                                   TextData (substitute_tokens ctx (decode_utf8 content)))])%list ∧
    (Warn, "Failed to process template variables in " ++ file ++ ": " ++ msg) ∈ log st' ∧
    ∀ rest,
      process_files template getFileContent path_join path_dirname decode_utf8
        ensureDir_ok writeFile_ok fs_error ctx (file :: rest) st =
      process_files template getFileContent path_join path_dirname decode_utf8
        ensureDir_ok writeFile_ok fs_error ctx rest st'.
Proof.
  intros Hc Ht H1 H2 Htpl He Hw.
  pose proof (processFile_text_run template getFileContent path_join path_dirname decode_utf8
                ensureDir_ok writeFile_ok fs_error file ctx content st Hc Ht He Hw) as Hrun.
  rewrite (rewrite_content_failure _ _ _ _ msg H1 H2 Htpl) in Hrun. simpl in Hrun.
  eexists. split; [exact Hrun|]. split; [done|]. split.
  - simpl. rewrite !elem_of_app. right. right. by constructor.
  - intros rest. simpl. unfold bind. by rewrite Hrun.
Qed.

Lemma processFile_interpolation_failure_continues_witness :
  written (snd (run_one "a.md" "{{ nope }} ${projectName}")) =
    [("/out/a.md", TextData "{{ nope }} orders-api")].
Proof.
  destruct (processFile_interpolation_failure_continues lodash_fields
              (λ _, inr "{{ nope }} ${projectName}") fixture_join fixture_dirname
              fixture_decode fixture_ok fixture_ok fixture_error "a.md" ctx_orders
              "{{ nope }} ${projectName}" "nope is not defined" (mkIO [] [])
              ltac:(reflexivity) ltac:(vm_compute; reflexivity) ltac:(vm_compute; reflexivity)
              ltac:(vm_compute; reflexivity) ltac:(vm_compute; reflexivity)
              ltac:(reflexivity) ltac:(reflexivity)) as (st' & Hrun & Hw & _).
  unfold run_one. rewrite Hrun. simpl. rewrite Hw. vm_compute. reflexivity.
Defined.

(* ------------------------------------------------------------------ *)
(** ** Further properties of the registry, the template processor, the
    template sources and the generate command *)

(** Every name in the result of [getPluginsInDependencyOrder] is a
    registered plugin reachable from a requested name along dependency edges,
    and every such registered plugin is in the result: dependency order
    neither drops a registered transitive dependency nor adds anything else. *)
Theorem getPluginsInDependencyOrder_members (plugins : registry) (names : list string) :
  ∃ out, getPluginsInDependencyOrder plugins names = Some out ∧
    ∀ x, x ∈ out ↔ is_Some (plugins !! x) ∧ ∃ n, n ∈ names ∧ rtc (dep_edge plugins) n x.
Proof.
  destruct (order_some plugins names) as (out & Hout & _ & Hreg).
  exists out. split; [done|].
  unfold getPluginsInDependencyOrder in Hout.
  destruct (for_each_opt (visit plugins (S (size (dom plugins)))) names (∅, []))
    as [[V R]|] eqn:Hr; [|discriminate].
  injection Hout as <-.
  destruct (for_each_opt_ind
              (λ s, (∀ y, y ∈ fst s → ∃ n, n ∈ names ∧ rtc (dep_edge plugins) n y) ∧
                    (∀ y, y ∈ snd s → y ∈ fst s))
              (λ _ _, True) (λ _ _, True) (visit plugins (S (size (dom plugins)))) names
              (∅, []) (V, R)) as ((HV & HR) & _ & _); [auto|auto|auto| | |exact Hr|].
  { intros x [V1 R1] [V2 R2] Hx [HV1 HR1] Hb. cbn [fst snd] in *.
    destruct (visit_sound plugins _ _ _ _ _ _ Hb) as [HV2 HR2]. split_and!; [| |done|done].
    - intros y Hy. destruct (HV2 y Hy) as [Hy1|Hy1]; [auto|eauto].
    - intros y Hy. destruct (HR2 y Hy) as [Hy1|Hy1]; [|done].
      destruct (visit_mono plugins _ _ _ _ Hb) as [(Hsub & _) _]. simpl in Hsub.
      set_solver. }
  { simpl. split; intros y Hy; set_solver. }
  destruct (for_each_opt_ind (closed_inv plugins []) (grows plugins)
              (λ n s, n ∈ fst s) (visit plugins (S (size (dom plugins)))) names
              (∅, []) (V, R) (grows_refl plugins) (grows_trans plugins))
    as (Hcl & _ & Hnames); [| | |exact Hr|].
  { intros x s1 s2 Hx (Hs & _ & _). by apply Hs. }
  { intros x s1 s2 _ Hs1 Hb. destruct (visit_closed plugins _ _ _ _ _ Hs1 Hb).
    destruct (visit_mono plugins _ _ _ _ Hb). auto. }
  { intros v q Hv. simpl in Hv. set_solver. }
  cbn [fst snd] in *. intros x. split.
  - intros Hx. split; [by apply Hreg|]. apply HV. by apply HR.
  - intros [[p Hp] (n & Hn & Hnx)].
    assert (Hreach : ∀ a b, rtc (dep_edge plugins) a b → a ∈ V → b ∈ V).
    { intros a b Hab. induction Hab as [a|a c b (q & Hq & Hc) Hcb IH]; [done|].
      intros Ha. apply IH. destruct (Hcl a q Ha Hq) as [Hk|[_ Hd]]; [set_solver|auto]. }
    destruct (Hcl x p (Hreach n x Hnx (Hnames n Hn)) Hp) as [Hk|[Hx _]]; [set_solver|done].
Qed.

(** Requesting more names never reorders what the first names gave: the
    order for [names ++ more] extends the order for [names]. *)
Theorem getPluginsInDependencyOrder_prefix (plugins : registry) (names more : list string) :
  ∃ out extra : list string, getPluginsInDependencyOrder plugins names = Some out ∧
    getPluginsInDependencyOrder plugins (names ++ more) = Some (out ++ extra)%list.
Proof.
  destruct (order_some plugins names) as (out & Hout & _).
  destruct (order_some plugins (names ++ more)) as (out2 & Hout2 & _).
  unfold getPluginsInDependencyOrder in *. rewrite for_each_opt_app in Hout2.
  destruct (for_each_opt (visit plugins (S (size (dom plugins)))) names (∅, []))
    as [[V R]|] eqn:Hr; [|discriminate]. injection Hout as <-.
  destruct (for_each_opt (visit plugins (S (size (dom plugins)))) more (V, R))
    as [[V2 R2]|] eqn:Hm; [|discriminate]. injection Hout2 as <-.
  destruct (for_each_opt_ind (λ _, True) (λ s s', ∃ R3, snd s' = (snd s ++ R3)%list)
              (λ _ _, True) (visit plugins (S (size (dom plugins)))) more
              (V, R) (V2, R2)) as (_ & [R3 HR3] & _);
    [intros s; exists []; by rewrite app_nil_r
    |intros s1 s2 s3 [Ra Ha] [Rb Hb]; exists (Ra ++ Rb)%list; by rewrite Hb, Ha, app_assoc
    |auto|intros x s1 s2 _ _ Hb; split_and!; [done|by eapply visit_prefix|done]
    |done|exact Hm|].
  exists R, R3. rewrite for_each_opt_app, Hr, Hm. simpl in HR3. by subst.
Qed.

(** Requesting again names that were already requested changes nothing. *)
Theorem getPluginsInDependencyOrder_repeat (plugins : registry) (names again : list string) :
  (∀ n, n ∈ again → n ∈ names) →
  getPluginsInDependencyOrder plugins (names ++ again) =
  getPluginsInDependencyOrder plugins names.
Proof.
  intros Hagain. unfold getPluginsInDependencyOrder. rewrite for_each_opt_app.
  destruct (for_each_opt (visit plugins (S (size (dom plugins)))) names (∅, []))
    as [[V R]|] eqn:Hr; [|done].
  destruct (for_each_opt_ind (λ _, True) (grows plugins) (λ n s, n ∈ fst s)
              (visit plugins (S (size (dom plugins)))) names (∅, []) (V, R)
              (grows_refl plugins) (grows_trans plugins)) as (_ & _ & Hnames);
    [|intros x s1 s2 _ _ Hb; destruct (visit_mono plugins _ _ _ _ Hb); auto|done|exact Hr|].
  { intros x s1 s2 Hx (Hs & _ & _). by apply Hs. }
  rewrite for_each_visited; [done|]. intros n Hn. apply (Hnames n). auto.
Qed.

Lemma getPluginsInDependencyOrder_repeat_witness :
  (∀ n, n ∈ ["C"; "A"] → n ∈ ["A"; "C"]) ∧
  getPluginsInDependencyOrder reg_A_B (["A"; "C"] ++ ["C"; "A"]) = Some ["B"; "A"].
Proof.
  split; [set_solver|].
  rewrite (getPluginsInDependencyOrder_repeat reg_A_B ["A"; "C"] ["C"; "A"]) by set_solver.
  vm_compute. reflexivity.
Defined.

(** [resolveDependencies] succeeds exactly when every plugin reachable from
    [name] is registered and no reachable plugin lies on a dependency cycle. *)
Theorem resolveDependencies_top_ok_iff (plugins : registry) (name : string) :
  resolveDependencies_top plugins name = Ret tt ↔
  (∀ y, rtc (dep_edge plugins) name y → is_Some (plugins !! y)) ∧
  ¬ ∃ y, rtc (dep_edge plugins) name y ∧ tc (dep_edge plugins) y y.
Proof.
  unfold resolveDependencies_top. split.
  - intros Hr. split.
    + intros y Hy. destruct (resolve_ret_reach plugins _ _ _ y Hr Hy) as (f' & V' & Hy').
      destruct (resolve_ret plugins _ _ _ Hy') as (p & Hp & _). by exists p.
    + intros (y & Hy & Hc). destruct (resolve_ret_reach plugins _ _ _ y Hr Hy) as (f' & V' & Hy').
      destruct (resolve_ret_fresh plugins _ _ _ Hy') as [_ Hf]. by destruct (Hf y Hc).
  - intros [Hreg Hnocyc].
    destruct (resolveDependencies plugins (S (size (dom plugins))) name ∅) as [[]|e|] eqn:Hr.
    + done.
    + exfalso. destruct (resolve_throw_form plugins _ _ _ _ Hr)
        as [[c ->]|[[-> Hn]|(m & x & -> & Hx & Hxm & Hm)]].
      * destruct (resolve_circular_reach plugins _ _ _ _ Hr) as [Hc [Hin|Hcyc]]; [set_solver|].
        apply Hnocyc. eauto.
      * destruct (Hreg name (rtc_refl _ _)) as [? Hs]. by rewrite Hn in Hs.
      * destruct (Hreg m) as [? Hs]; [by eapply rtc_r|]. by rewrite Hm in Hs.
    + exfalso. refine (resolve_nofuel plugins _ _ _ _ Hr).
      pose proof (subseteq_size (dom plugins ∖ ∅) (dom plugins) ltac:(set_solver)). lia.
Qed.

(** Registering a plugin whose name is new succeeds, [getPlugin] then
    returns it, and the lookups of every other name are unchanged. *)
Theorem register_fresh_lookup (plugins : registry) (p : plugin) :
  hasPlugin plugins (p_name p) = false →
  fst (register plugins p) = Ret tt ∧
  getPlugin (snd (register plugins p)) (p_name p) = Ret p ∧
  ∀ n, n ≠ p_name p → getPlugin (snd (register plugins p)) n = getPlugin plugins n.
Proof.
  unfold hasPlugin, register. intros Hh. case_bool_decide as Hn; [discriminate|].
  rewrite decide_False by done. simpl. split_and!; [done| |].
  - unfold getPlugin. by rewrite lookup_insert_eq.
  - intros n Hne. unfold getPlugin. by rewrite lookup_insert_ne by done.
Qed.

Lemma register_fresh_lookup_witness :
  hasPlugin reg_A_B "C" = false ∧
  getPlugin (snd (register reg_A_B (mkPlugin "C" "2.0.0" ["A"]))) "C" =
    Ret (mkPlugin "C" "2.0.0" ["A"]).
Proof.
  split; [vm_compute; reflexivity|].
  exact (proj1 (proj2 (register_fresh_lookup reg_A_B (mkPlugin "C" "2.0.0" ["A"])
                         ltac:(vm_compute; reflexivity)))).
Defined.

(** Registering a list of plugins one by one (the built-in discovery loop,
    whose catch swallows the duplicate error) keeps, for a name not yet
    registered, the first plugin of the list that bears it. *)
Theorem register_all_first_wins (plugins : registry) (ps : list plugin) (n : string) :
  plugins !! n = None →
  register_all plugins ps !! n = head (filter (λ p, p_name p = n) ps).
Proof.
  unfold register_all. revert plugins. induction ps as [|p ps IH]; intros plugins Hn; simpl.
  - done.
  - rewrite filter_cons.
    assert (Hreg : snd (register plugins p) =
              if decide (is_Some (plugins !! p_name p)) then plugins
              else <[p_name p := p]> plugins) by (unfold register; by destruct decide).
    rewrite Hreg.
    destruct (decide (is_Some (plugins !! p_name p))) as [Hs|Hs].
    + rewrite decide_False.
      * by apply IH.
      * intros <-. rewrite Hn in Hs. by destruct Hs.
    + destruct (decide (p_name p = n)) as [<-|Hne]; simpl.
      * assert (Hfold : ∀ (qs : list plugin) (r : registry), r !! p_name p = Some p →
                  foldl (λ acc q, snd (register acc q)) r qs !! p_name p = Some p).
        { induction qs as [|q qs IHq]; intros r Hr; simpl; [done|].
          apply IHq. unfold register.
          destruct (decide (is_Some (r !! p_name q))) as [|Hq]; simpl; [done|].
          rewrite lookup_insert_ne; [done|]. intros Heq. rewrite Heq, Hr in Hq. eauto. }
        apply Hfold. by rewrite lookup_insert_eq.
      * apply IH. by rewrite lookup_insert_ne.
Qed.

Lemma register_all_first_wins_witness :
  (∅ : registry) !! "A" = None ∧
  register_all ∅ [mkPlugin "A" "1.0.0" []; mkPlugin "B" "1.0.0" []; mkPlugin "A" "2.0.0" ["B"]]
    !! "A" = Some (mkPlugin "A" "1.0.0" []).
Proof.
  split; [done|].
  rewrite (register_all_first_wins ∅ _ "A") by done. vm_compute. reflexivity.
Defined.



(** When reading a template file fails, [processFile] writes nothing, logs
    one warning with the error message, and rethrows that same error. *)
Theorem processFile_read_failure template getFileContent path_join path_dirname
    decode_utf8 ensureDir_ok writeFile_ok fs_error file ctx msg st :
  getFileContent file = inl msg →
  processFile template getFileContent path_join path_dirname decode_utf8
    ensureDir_ok writeFile_ok fs_error file ctx st =
  (inl msg, mkIO (log st ++ [(Warn, "Failed to process file " ++ file ++ ": " ++ msg)])
                 (written st)).
Proof.
  intros Hc. unfold processFile, catch_log_rethrow, bind. rewrite Hc. simpl.
  by rewrite !append_assoc_str.
Qed.

Lemma processFile_read_failure_witness :
  processFile lodash_fields (λ _, inl "ENOENT: no such file") fixture_join fixture_dirname
    fixture_decode fixture_ok fixture_ok fixture_error "a.md" ctx_orders (mkIO [] []) =
  (inl "ENOENT: no such file",
   mkIO [(Warn, "Failed to process file a.md: ENOENT: no such file")] []).
Proof.
  rewrite (processFile_read_failure lodash_fields (λ _, inl "ENOENT: no such file")
    fixture_join fixture_dirname fixture_decode fixture_ok fixture_ok fixture_error
    "a.md" ctx_orders "ENOENT: no such file" (mkIO [] []) ltac:(reflexivity)).
  reflexivity.
Defined.

(** When the output directory can be created and every file can be read and
    written, [processTemplate] returns [true] and writes one output per
    template file, in the order of [getFiles], at [outputFilePath]. *)
Theorem processTemplate_all_written template getFileContent path_join path_dirname
    decode_utf8 ensureDir_ok writeFile_ok fs_error ctx files st :
  ensureDir_ok (outputDir ctx) = true →
  (∀ f, f ∈ files → file_ok template getFileContent path_join path_dirname
                       ensureDir_ok writeFile_ok ctx f) →
  ∃ st', processTemplate template getFileContent path_join path_dirname decode_utf8
           ensureDir_ok writeFile_ok fs_error ctx (inr files) st = (inr true, st') ∧
    map fst (written st') = (map fst (written st) ++
                             map (outputFilePath template path_join ctx) files)%list.
Proof.
  intros He Hok.
  destruct (process_files_ok_run template getFileContent path_join path_dirname decode_utf8
              ensureDir_ok writeFile_ok fs_error ctx files
              (mkIO (log st ++ [(Info, "Processing template files...");
                                (Debug, "Found " ++ pretty (N.of_nat (length files)) ++ " template files")])
                    (written st)) Hok) as (st2 & Hrun & Hw).
  unfold processTemplate, catch_log_rethrow, bind, logger. simpl.
  unfold ensureDir. rewrite He. simpl. rewrite <- app_assoc. simpl. rewrite Hrun.
  eexists. split; [reflexivity|]. simpl. exact Hw.
Qed.

Lemma processTemplate_all_written_witness :
  map fst (written (snd (processTemplate lodash_fields (λ _, inr "# ${projectName}")
     fixture_join fixture_dirname fixture_decode fixture_ok fixture_ok fixture_error
     ctx_orders (inr ["README.md"; "__packageDir__/App.java"]) (mkIO [] [])))) =
  ["/out/README.md"; "/out/com/acme/orders/App.java"].
Proof.
  destruct (processTemplate_all_written lodash_fields (λ _, inr "# ${projectName}")
     fixture_join fixture_dirname fixture_decode fixture_ok fixture_ok fixture_error
     ctx_orders ["README.md"; "__packageDir__/App.java"] (mkIO [] []) ltac:(reflexivity))
    as (st' & Hrun & Hw).
  - intros f _. split_and!; [by eexists|reflexivity|reflexivity].
  - rewrite Hrun. simpl. rewrite Hw. vm_compute. reflexivity.
Defined.

(** The first file that cannot be read aborts [processTemplate]: the files
    before it are written, none after it, and the error is logged as a
    warning of [processFile] and then as [Template processing failed: ...]
    before it is rethrown. *)
Theorem processTemplate_stops_at_failure template getFileContent path_join path_dirname
    decode_utf8 ensureDir_ok writeFile_ok fs_error ctx pre file post msg st :
  ensureDir_ok (outputDir ctx) = true →
  (∀ f, f ∈ pre → file_ok template getFileContent path_join path_dirname
                     ensureDir_ok writeFile_ok ctx f) →
  getFileContent file = inl msg →
  ∃ st', processTemplate template getFileContent path_join path_dirname decode_utf8
           ensureDir_ok writeFile_ok fs_error ctx (inr (pre ++ file :: post)%list) st = (inl msg, st') ∧
    map fst (written st') = (map fst (written st) ++
                             map (outputFilePath template path_join ctx) pre)%list ∧
    ∃ l, log st' = app l [(Warn, "Failed to process file " ++ file ++ ": " ++ msg);
                          (Error, "Template processing failed: " ++ msg)].
Proof.
  intros He Hok Hc.
  set (st1 := mkIO (log st ++ [(Info, "Processing template files...");
                (Debug, "Found " ++ pretty (N.of_nat (length (pre ++ file :: post)%list))
                        ++ " template files")]) (written st)).
  destruct (process_files_ok_run template getFileContent path_join path_dirname decode_utf8
              ensureDir_ok writeFile_ok fs_error ctx pre st1 Hok) as (st2 & Hrun & Hw).
  assert (Hall : process_files template getFileContent path_join path_dirname decode_utf8
                   ensureDir_ok writeFile_ok fs_error ctx (pre ++ file :: post)%list st1 =
                 (inl msg, mkIO (log st2 ++ [(Warn, "Failed to process file " ++ file ++ ": " ++ msg)])
                                (written st2))).
  { rewrite process_files_app. unfold bind at 1. rewrite Hrun. simpl. unfold bind.
    by rewrite (processFile_read_failure_run template getFileContent path_join path_dirname
                  decode_utf8 ensureDir_ok writeFile_ok fs_error file ctx msg st2 Hc). }
  unfold processTemplate, catch_log_rethrow, bind, logger. simpl.
  unfold ensureDir. rewrite He. simpl. rewrite <- app_assoc. simpl.
  fold st1. rewrite Hall.
  eexists. split; [reflexivity|]. simpl. split; [exact Hw|].
  exists (log st2). by rewrite <- app_assoc.
Qed.

Lemma processTemplate_stops_at_failure_witness :
  fst (processTemplate lodash_fields
     (λ f, if String.eqb f "b.md" then inl "EACCES: b.md" else inr "x")
     fixture_join fixture_dirname fixture_decode fixture_ok fixture_ok fixture_error
     ctx_orders (inr ["a.md"; "b.md"; "c.md"]) (mkIO [] [])) = inl "EACCES: b.md" ∧
  map fst (written (snd (processTemplate lodash_fields
     (λ f, if String.eqb f "b.md" then inl "EACCES: b.md" else inr "x")
     fixture_join fixture_dirname fixture_decode fixture_ok fixture_ok fixture_error
     ctx_orders (inr ["a.md"; "b.md"; "c.md"]) (mkIO [] [])))) = ["/out/a.md"].
Proof.
  destruct (processTemplate_stops_at_failure lodash_fields
     (λ f, if String.eqb f "b.md" then inl "EACCES: b.md" else inr "x")
     fixture_join fixture_dirname fixture_decode fixture_ok fixture_ok fixture_error
     ctx_orders ["a.md"] "b.md" ["c.md"] "EACCES: b.md" (mkIO [] []) ltac:(reflexivity))
    as (st' & Hrun & Hw & _).
  - intros f Hf. apply list_elem_of_singleton in Hf as ->.
    split_and!; [by eexists|reflexivity|reflexivity].
  - reflexivity.
  - change (["a.md"] ++ "b.md" :: ["c.md"])%list with ["a.md"; "b.md"; "c.md"] in Hrun.
    rewrite Hrun. split; [reflexivity|]. simpl. rewrite Hw. vm_compute. reflexivity.
Defined.



(** A package name of [[a-z0-9]] segments with at least one dot is its own
    default package: [getDefaultPackage] leaves it unchanged. *)
Theorem getDefaultPackage_fixed_point p :
  is_package p = true → includes p "." = true → getDefaultPackage p = p.
Proof.
  apply getDefaultPackage_fixed.
Qed.

Lemma getDefaultPackage_fixed_point_witness :
  getDefaultPackage "com.acme.orders" = "com.acme.orders".
Proof. apply getDefaultPackage_fixed_point; reflexivity. Defined.

(** For a name with an ASCII letter or digit, [getDefaultPackage] is
    idempotent. *)
Theorem getDefaultPackage_idempotent name :
  has_alnum (toLowerCase name) = true →
  getDefaultPackage (getDefaultPackage name) = getDefaultPackage name.
Proof.
  intros Ha. destruct (getDefaultPackage_package name Ha) as [Hp Hi].
  by apply getDefaultPackage_fixed.
Qed.

Lemma getDefaultPackage_idempotent_witness :
  getDefaultPackage (getDefaultPackage "Orders API") = "orders.api".
Proof. rewrite getDefaultPackage_idempotent; reflexivity. Defined.




(** Called with the options object of the generate command, whose [org],
    [repo] and [branch] keys are always present, [getTemplateSource] builds a
    git source whose repository URL and branch ignore the [org], [repo] and
    [branch] of the configuration file: an unset option falls back to the
    built-in default ([rcdelacruz], [platform-template-<name>], [main]),
    and only a configured [url] is still used. *)
Theorem getTemplateSource_generate_options templateConfigs templateName org repo branch st :
  let templateConfig := default ∅ (templateConfigs !! templateName) in
  or_else (get_prop templateConfig "source") "git" = "git" →
  ∃ src st', getTemplateSource templateConfigs templateName (generate_source_options org repo branch) st
               = (inr src, st') ∧
    getRepoUrl src =
      (if truthy (or_else (get_prop templateConfig "url") "") then or_else (get_prop templateConfig "url") ""
       else "https://github.com/" ++ or_else org "rcdelacruz" ++ "/" ++
            or_else repo ("platform-template-" ++ templateName) ++ ".git") ∧
    getBranch src = or_else branch "main".
Proof.
  intros tc Hs.
  set (o := generate_source_options org repo branch).
  assert (Hkeep : ∀ k, k ≠ "org" → k ≠ "repo" → k ≠ "branch" → get_prop (o ∪ tc) k = get_prop tc k).
  { intros k H1 H2 H3. unfold get_prop, o, generate_source_options.
    rewrite lookup_union, !lookup_insert_ne, lookup_empty by congruence.
    by destruct (tc !! k). }
  assert (Horg : get_prop (o ∪ tc) "org" = org).
  { unfold get_prop, o, generate_source_options. rewrite lookup_union, lookup_insert_eq. by destruct (tc !! _). }
  assert (Hrepo : get_prop (o ∪ tc) "repo" = repo).
  { unfold get_prop, o, generate_source_options.
    rewrite lookup_union, lookup_insert_ne, lookup_insert_eq by done. by destruct (tc !! _). }
  assert (Hbranch : get_prop (o ∪ tc) "branch" = branch).
  { unfold get_prop, o, generate_source_options.
    rewrite lookup_union, !lookup_insert_ne, lookup_insert_eq by done. by destruct (tc !! _). }
  unfold getTemplateSource. fold tc.
  rewrite (Hkeep "source"), Hs by done. cbn.
  eexists _, _. split; [reflexivity|]. split.
  - unfold getRepoUrl. cbn [git_config git_templateName].
    rewrite (Hkeep "url"), Horg, Hrepo by done. reflexivity.
  - unfold getBranch. cbn [git_config]. by rewrite Hbranch.
Qed.

Lemma getTemplateSource_generate_options_witness :
  ∃ src st', getTemplateSource acme_templates "api" (generate_source_options None None None) (mkIO [] [])
               = (inr src, st') ∧
    getRepoUrl src = "https://github.com/rcdelacruz/platform-template-api.git" ∧
    getBranch src = "main".
Proof.
  apply (getTemplateSource_generate_options acme_templates "api" None None None (mkIO [] [])).
  vm_compute. reflexivity.
Defined.

(** [listTemplates] returns the configured templates first, in order,
    followed by the local templates not already listed; the result has no
    duplicates and holds exactly the configured and the local names. *)
Theorem listTemplates_spec configKeys localExists readdir out :
  NoDup configKeys →
  listTemplates configKeys localExists readdir = inr out →
  NoDup out ∧ (∃ extra, out = (configKeys ++ extra)%list) ∧
  ∀ t, t ∈ out ↔ t ∈ configKeys ∨
         (localExists = true ∧ ∃ localTemplates, readdir = inr localTemplates ∧ t ∈ localTemplates).
Proof.
  intros Hnd Hl. unfold listTemplates in Hl.
  destruct localExists; [destruct readdir as [e|local]|]; simplify_eq.
  - destruct (add_missing_spec local configKeys Hnd) as (H1 & H2 & H3).
    split_and!; [done|done|]. intros t. rewrite H3. split.
    + intros [?|?]; [by left|right; eauto].
    + intros [?|(_ & l & [= <-] & ?)]; auto.
  - split_and!; [done|exists []; by rewrite app_nil_r|]. intros t. split; [auto|].
    intros [?|(? & _)]; [done|discriminate].
Qed.

Lemma listTemplates_spec_witness :
  NoDup ["spring-boot"; "react"] ∧
  listTemplates ["spring-boot"; "react"] true (inr ["react"; "vue"; "vue"]) = inr ["spring-boot"; "react"; "vue"] ∧
  NoDup ["spring-boot"; "react"; "vue"].
Proof.
  assert (Hnd : NoDup ["spring-boot"; "react"]) by (repeat constructor; set_solver).
  assert (Hl : listTemplates ["spring-boot"; "react"] true (inr ["react"; "vue"; "vue"])
               = inr ["spring-boot"; "react"; "vue"]) by reflexivity.
  split_and!; [exact Hnd|exact Hl|].
  exact (proj1 (listTemplates_spec _ _ _ _ Hnd Hl)).
Defined.

(** [isTextFile] ignores letter case: a path and its lower-case form are
    classified alike. *)
Theorem isTextFile_case_insensitive p : isTextFile (toLowerCase p) = isTextFile p.
Proof.
  unfold isTextFile. by rewrite extname_toLowerCase, basename_toLowerCase, !toLowerCase_idem.
Qed.

(** In a path without [{{], only the first [__packageDir__] is replaced
    by the package name with its dots turned into slashes; later ones are
    kept. *)
Theorem rewrite_path_packageDir_first template ctx a b :
  includes (a ++ "__packageDir__" ++ b) "{{" = false →
  truthy (packageName ctx) = true →
  includes (packageName ctx) "$" = false →
  includes (a ++ "__packageDir_") "__packageDir__" = false →
  rewrite_path template ctx (a ++ "__packageDir__" ++ b) =
    (a ++ replace_all (packageName ctx) "." "/" ++ b, []).
Proof.
  intros Hb Ht Hd Hfirst. unfold rewrite_path, interpolate_step. rewrite Hb. cbn [andb].
  rewrite Ht, includes_app_self. cbn [andb]. f_equal.
  unfold replace_first.
  change "__packageDir__" with ("__packageDir_" ++ String "_" EmptyString).
  rewrite replace_first_go_first by exact Hfirst.
  rewrite get_substitution_plain; [done|].
  unfold replace_all. apply replace_all_go_no_dollar.
  rewrite includes_char in Hd. by apply negb_false_iff.
Qed.

Lemma rewrite_path_packageDir_first_witness :
  rewrite_path lodash_fields ctx_orders "src/__packageDir__/__packageDir__.java" =
    ("src/com/acme/orders/__packageDir__.java", []).
Proof.
  apply (rewrite_path_packageDir_first lodash_fields ctx_orders "src/" "/__packageDir__.java");
    vm_compute; reflexivity.
Defined.
